(** * Schroedinger-Newton BEC halo solver: a shallow embedding of the notebook

    The notebook [numerical-solution-SN-BEC-halo-thomas-algorithm.ipynb] is a
    sequence of cells working on global variables.  Numbers are modelled in
    exact arithmetic: Python [int] and [float] values are real numbers of
    [R], Python [complex] values are pairs of reals.  Python lists are
    [list]s, [l.append(x)] is [l ++ [x]], and the exceptions the cells can
    raise are values of an error monad.  The Thomas algorithm is given a
    second time on binary64 floats, to run it as Python does on [float]
    lists. *)

From Stdlib Require Import Reals Lra Lia List Arith Field Psatz.
From Stdlib Require Floats.PrimFloat.
Import ListNotations.
Local Open Scope R_scope.

(** ** Exceptions *)

Inductive exn : Type :=
| IndexError          (* list index out of range *)
| ZeroDivisionError   (* division by zero *)
| ValueError.         (* operands could not be broadcast together *)

Inductive result (A : Type) : Type :=
| Ok (x : A)
| Raise (e : exn).

Arguments Ok {A} x.
Arguments Raise {A} e.

Definition bind {A B : Type} (m : result A) (k : A -> result B) : result B :=
  match m with
  | Ok x => k x
  | Raise e => Raise e
  end.

Declare Scope py_scope.
Delimit Scope py_scope with py.
Notation "x <- m ;; k" := (bind m (fun x => k))
  (at level 61, m at next level, right associativity) : py_scope.
Notation "' p <- m ;; k" := (bind m (fun x => match x with p => k end))
  (at level 61, p pattern, m at next level, right associativity) : py_scope.
Local Open Scope py_scope.

(** [l[i]] for a non-negative index. *)
Definition getitem {A : Type} (l : list A) (i : nat) : result A :=
  match nth_error l i with
  | Some x => Ok x
  | None => Raise IndexError
  end.

(** [for i in l: s = body(i, s)], stopping at the first exception. *)
Fixpoint for_each {St : Type} (l : list nat) (body : nat -> St -> result St)
  (s : St) : result St :=
  match l with
  | [] => Ok s
  | i :: l' => s' <- body i s ;; for_each l' body s'
  end.

(** [range(lo, hi)] *)
Definition range (lo hi : nat) : list nat := seq lo (hi - lo).

(** ** Complex numbers *)

Definition C : Type := (R * R)%type.

Definition RtoC (x : R) : C := (x, 0).
Definition Ci : C := (0, 1).
Definition Re (z : C) : R := fst z.
Definition Im (z : C) : R := snd z.

Definition C0 : C := (0, 0).
Definition C1 : C := (1, 0).

Definition Cplus (z w : C) : C := (fst z + fst w, snd z + snd w).
Definition Copp (z : C) : C := (- fst z, - snd z).
Definition Cminus (z w : C) : C := Cplus z (Copp w).
Definition Cmult (z w : C) : C :=
  (fst z * fst w - snd z * snd w, fst z * snd w + snd z * fst w).
Definition Cinv (z : C) : C :=
  (fst z / (fst z * fst z + snd z * snd z),
   - snd z / (fst z * fst z + snd z * snd z)).
Definition Cdiv (z w : C) : C := Cmult z (Cinv w).

(** [abs(z)] *)
Definition Cabs (z : C) : R := sqrt (fst z * fst z + snd z * snd z).

Declare Scope C_scope.
Delimit Scope C_scope with C.
Bind Scope C_scope with C.
Infix "+" := Cplus : C_scope.
Infix "-" := Cminus : C_scope.
Infix "*" := Cmult : C_scope.
Infix "/" := Cdiv : C_scope.
Notation "- z" := (Copp z) : C_scope.
Notation "/ z" := (Cinv z) : C_scope.

Definition Ceq_dec (z w : C) : {z = w} + {z <> w}.
Proof.
  destruct z as [x y], w as [x' y'].
  destruct (Req_dec_T x x') as [Hx | Hx].
  - destruct (Req_dec_T y y') as [Hy | Hy].
    + left; subst; reflexivity.
    + right; intros E; inversion E; contradiction.
  - right; intros E; inversion E; contradiction.
Defined.

(** Division raises on an exactly zero divisor, as Python's [/] does on
    [int], [float] and [complex] operands.  (From the second time step on
    some operands are NumPy scalars, whose division by zero gives inf or
    nan and a warning; [built_diag_nonzero] below shows that no division of
    a time step has a zero divisor.) *)
Definition truediv (z w : C) : result C :=
  if Ceq_dec w C0 then Raise ZeroDivisionError else Ok (z / w)%C.

Coercion RtoC : R >-> C.

(** [np.array(x) - np.array(y)] on one-dimensional arrays, then [list(...)]:
    element-wise on equal lengths, a length-one operand is broadcast, any
    other pair of shapes is rejected. *)
Fixpoint zip_with {A B D : Type} (f : A -> B -> D) (x : list A) (y : list B)
  : list D :=
  match x, y with
  | z :: x', w :: y' => f z w :: zip_with f x' y'
  | _, _ => []
  end.

Definition array_sub (x y : list C) : result (list C) :=
  if (length x =? length y)%nat then Ok (zip_with Cminus x y)
  else match x, y with
       | [x0], _ => Ok (map (fun w => x0 - w)%C y)
       | _, [y0] => Ok (map (fun z => z - y0)%C x)
       | _, _ => Raise ValueError
       end.

(** ** The Thomas algorithm on Python floats

    The lists of cell 9 may hold [float] values as well as [complex] ones;
    the same lines then run in binary64 arithmetic, rounded to nearest.
    This is step 4 of cell 9 again, line by line, on primitive floats; the
    version over exact numbers is in the section below. *)

Module Float64.

Import PrimFloat.

(** [x / y]: an exception on a divisor equal to zero, of either sign. *)
Definition truediv (x y : float) : result float :=
  if PrimFloat.eqb y 0%float then Raise ZeroDivisionError
  else Ok (PrimFloat.div x y).

Definition forward_body (A_J B_J C_J d : list float) (i : nat)
  (st : list float * list float) : result (list float * list float) :=
  let '(B, D) := st in
  if (i =? 0)%nat then
    b <- getitem B_J i ;;
    let B := B ++ [b] in
    d_i <- getitem d i ;;
    Ok (B, D ++ [d_i])
  else
    b <- getitem B_J i ;;
    a_i <- getitem A_J i ;;
    c <- getitem C_J (i - 1) ;;
    B' <- getitem B (i - 1) ;;
    q <- truediv (PrimFloat.mul a_i c) B' ;;
    let B := B ++ [PrimFloat.sub b q] in
    d_i <- getitem d i ;;
    a_i <- getitem A_J i ;;
    D' <- getitem D (i - 1) ;;
    B' <- getitem B (i - 1) ;;
    q <- truediv (PrimFloat.mul a_i D') B' ;;
    Ok (B, D ++ [PrimFloat.sub d_i q]).

Definition forward_sweep (N : nat) (A_J B_J C_J d : list float)
  : result (list float * list float) :=
  for_each (range 0 N) (forward_body A_J B_J C_J d) ([], []).

Definition backward_body (N : nat) (C_J B D : list float) (i : nat)
  (X : list float) : result (list float) :=
  if (i =? 0)%nat then
    D' <- getitem D (N - 1 - i) ;;
    B' <- getitem B (N - 1 - i) ;;
    x <- truediv D' B' ;;
    Ok (X ++ [x])
  else
    D' <- getitem D (N - 1 - i) ;;
    c <- getitem C_J (N - 1 - i) ;;
    x' <- getitem X (i - 1) ;;
    B' <- getitem B (N - 1 - i) ;;
    x <- truediv (PrimFloat.sub D' (PrimFloat.mul c x')) B' ;;
    Ok (X ++ [x]).

Definition backward_sweep (N : nat) (C_J B D : list float)
  : result (list float) :=
  for_each (range 0 N) (backward_body N C_J B D) [].

Definition thomas (N : nat) (A_J B_J C_J d : list float)
  : result (list float) :=
  '(B, D) <- forward_sweep N A_J B_J C_J d ;;
  X <- backward_sweep N C_J B D ;;
  Ok (rev X).

(** Left-hand side of row [i] of the system, evaluated in binary64, the
    terms outside the matrix dropped. *)
Definition row (N : nat) (A_J B_J C_J X : list float) (i : nat) : float :=
  PrimFloat.add
    (PrimFloat.add
       (if (i =? 0)%nat then 0%float
        else PrimFloat.mul (nth i A_J 0%float) (nth (i - 1) X 0%float))
       (PrimFloat.mul (nth i B_J 0%float) (nth i X 0%float)))
    (if (i =? N - 1)%nat then 0%float
     else PrimFloat.mul (nth i C_J 0%float) (nth (i + 1) X 0%float)).

End Float64.

(** ** Sample data *)

(** The snapshot [[0, 1, 0]] on a grid of [N = 3] points. *)
Definition spike : list C := [C0; C1; C0].

(** The system with sub-diagonal [[0, -1, -1]], diagonal [[2, 2, 2]],
    super-diagonal [[-1, -1, 0]] and right-hand side [[1, 2, 3]]. *)
Definition fixture_a : list C := [RtoC 0; RtoC (- 1); RtoC (- 1)].
Definition fixture_b : list C := [RtoC 2; RtoC 2; RtoC 2].
Definition fixture_c : list C := [RtoC (- 1); RtoC (- 1); RtoC 0].
Definition fixture_d : list C := [RtoC 1; RtoC 2; RtoC 3].

(** ** The notebook's cells *)

Section Notebook.

(** Cells 2, 3, 5 and 7: the configuration. *)
Variables G h a M : R.
Variables dr dt : R.
Variables N n : nat.

Definition rho : R := M / ((4 / 3) * PI * a ^ 3).

(** Cell 4. *)
Definition om_sq : R := 4 * PI * G * rho / 3.

(** Cell 6.  The notebook calls the first constant [R]. *)
Definition R_ : R := dt / dr ^ 2.
Definition K : C := (RtoC (h / (8 * M)) * Ci)%C.
Definition P : C := (RtoC (dt / (2 * h)) * Ci)%C.

(** The divisions of cells 3 to 6 raise unless these hold. *)
Definition constants_defined : Prop :=
  a <> 0 /\ M <> 0 /\ h <> 0 /\ dr <> 0.

(** Cell 8: the wave function at t = 0. *)
Definition psi_0 (J : nat) : R :=
  Rpower (PI * a ^ 2) (- 3 / 4) * exp (- (INR J * dr) ^ 2 / (2 * a ^ 2)).

Definition initial_condition : list (list C) :=
  [map (fun J => RtoC (psi_0 J)) (range 0 N)].

(** Cell 9, step 2: the potential.  [psi_t] is [psi_n_J[t]]. *)
Definition sums_body (psi_t : list C) (i : nat) (st : R * R)
  : result (R * R) :=
  let '(sum_1, sum_2) := st in
  z <- getitem psi_t i ;;
  let sum_1 := sum_1 + INR i ^ 2 * dr ^ 3 * Cabs z ^ 2 in
  z <- getitem psi_t i ;;
  let sum_2 := sum_2 + INR i ^ 4 * dr ^ 5 * Cabs z ^ 2 in
  Ok (sum_1, sum_2).

(** [sum_1 = 0; sum_2 = 0; i = 0; while i < N: ...; i += 1] *)
Definition potential_sums (psi_t : list C) : result (R * R) :=
  for_each (range 0 N) (sums_body psi_t) (0, 0).

Definition potential_body (psi_t : list C) (J : nat) (V_n_J : list R)
  : result (list R) :=
  '(sum_1, sum_2) <- potential_sums psi_t ;;
  Ok (V_n_J ++ [2 * PI * om_sq * (INR J * dr) ^ 2 * sum_1 - sum_2]).

Definition potential (psi_t : list C) : result (list R) :=
  for_each (range 0 N) (potential_body psi_t) [].

(** Cell 9, step 3: the coefficients of the tridiagonal matrix.  In the
    [elif] and [else] branches [J >= 1], so [J - 1] and [N - 2] are the
    integer differences.  The potential is read at index [t], the number of
    the time step. *)
Definition tridiagonal_body (V_n_J : list R) (t J : nat)
  (st : list C * list C * list C) : result (list C * list C * list C) :=
  let '(A_J, B_J, C_J) := st in
  if (J =? 0)%nat then
    v <- getitem V_n_J t ;;
    let b_0 := (0.5 * (1 + P * v + 12 * K * R_))%C in
    let c_0 := (- 6 * K * R_)%C in
    Ok (A_J ++ [RtoC 0], B_J ++ [b_0], C_J ++ [c_0])
  else if (J =? N - 1)%nat then
    q <- truediv (INR (N - 2)) (INR (N - 1)) ;;
    let a_J := (- K * R_ * q)%C in
    v <- getitem V_n_J t ;;
    let b_J := (0.5 * (1 + P * v))%C in
    Ok (A_J ++ [a_J], B_J ++ [b_J], C_J ++ [RtoC 0])
  else
    a_J <- truediv (- K * R_ * INR (J - 1))%C (INR J) ;;
    v <- getitem V_n_J t ;;
    let b_J := (0.5 * (1 + P * v + 2 * K * R_))%C in
    c_J <- truediv (- K * R_ * INR (J + 1))%C (INR J) ;;
    Ok (A_J ++ [a_J], B_J ++ [b_J], C_J ++ [c_J]).

Definition tridiagonal (V_n_J : list R) (t : nat)
  : result (list C * list C * list C) :=
  for_each (range 0 N) (tridiagonal_body V_n_J t) ([], [], []).

(** Cell 9, step 4: the Thomas algorithm; [d] is [psi_n_J[t]]. *)
Definition forward_body (A_J B_J C_J d : list C) (i : nat)
  (st : list C * list C) : result (list C * list C) :=
  let '(B, D) := st in
  if (i =? 0)%nat then
    b <- getitem B_J i ;;
    let B := B ++ [b] in
    d_i <- getitem d i ;;
    Ok (B, D ++ [d_i])
  else
    b <- getitem B_J i ;;
    a_i <- getitem A_J i ;;
    c <- getitem C_J (i - 1) ;;
    B' <- getitem B (i - 1) ;;
    q <- truediv (a_i * c)%C B' ;;
    let B := B ++ [(b - q)%C] in
    d_i <- getitem d i ;;
    a_i <- getitem A_J i ;;
    D' <- getitem D (i - 1) ;;
    B' <- getitem B (i - 1) ;;
    q <- truediv (a_i * D')%C B' ;;
    Ok (B, D ++ [(d_i - q)%C]).

Definition forward_sweep (A_J B_J C_J d : list C)
  : result (list C * list C) :=
  for_each (range 0 N) (forward_body A_J B_J C_J d) ([], []).

Definition backward_body (C_J B D : list C) (i : nat) (X : list C)
  : result (list C) :=
  if (i =? 0)%nat then
    D' <- getitem D (N - 1 - i) ;;
    B' <- getitem B (N - 1 - i) ;;
    x <- truediv D' B' ;;
    Ok (X ++ [x])
  else
    D' <- getitem D (N - 1 - i) ;;
    c <- getitem C_J (N - 1 - i) ;;
    x' <- getitem X (i - 1) ;;
    B' <- getitem B (N - 1 - i) ;;
    x <- truediv (D' - c * x')%C B' ;;
    Ok (X ++ [x]).

Definition backward_sweep (C_J B D : list C) : result (list C) :=
  for_each (range 0 N) (backward_body C_J B D) [].

(** The two sweeps, then [X.reverse()]. *)
Definition thomas (A_J B_J C_J d : list C) : result (list C) :=
  '(B, D) <- forward_sweep A_J B_J C_J d ;;
  X <- backward_sweep C_J B D ;;
  Ok (rev X).

(** Cell 9: one pass of the body of [for t in range(0, n)].  The cell looks
    [psi_n_J[t]] up at each use; the list is not changed before step 5, so
    every lookup gives the value of the first one. *)
Definition time_step (t : nat) (psi_n_J : list (list C))
  : result (list (list C)) :=
  psi_t <- getitem psi_n_J t ;;
  V_n_J <- potential psi_t ;;
  '(A_J, B_J, C_J) <- tridiagonal V_n_J t ;;
  X <- thomas A_J B_J C_J psi_t ;;
  psi' <- array_sub X psi_t ;;
  Ok (psi_n_J ++ [psi']).

Definition time_loop (psi_n_J : list (list C)) : result (list (list C)) :=
  for_each (range 0 n) time_step psi_n_J.

(** Cell 11: the radius r_99.  [scan] is the inner [for k in psi_n_J[l]]
    with its [break]; it gives the appended radius, if any, and the final
    values of [i] and [s]. *)
Fixpoint scan (ks : list C) (i : nat) (s : R) : option R * nat * R :=
  match ks with
  | [] => (None, i, s)
  | k :: ks' =>
      let s := s + 4 * PI * (INR i * dr) ^ 2 * Cabs k ^ 2 * dr in
      if Rlt_dec 0.99 s then (Some (INR i * dr), i, s)
      else scan ks' (i + 1) s
  end.

(** Each pass of [while l <= n] adds one to [l], in the [if] or in the
    [else] of the [for]: the loop runs over [l = 0 .. n].  Only the [if]
    appends to [r_99]. *)
Definition r99_body (psi_n_J : list (list C)) (l : nat) (st : list R * R)
  : result (list R * R) :=
  let '(r_99, _) := st in
  psi_l <- getitem psi_n_J l ;;
  let '(found, _, s) := scan psi_l 0 0 in
  match found with
  | Some r => Ok (r_99 ++ [r], s)
  | None => Ok (r_99, s)
  end.

Definition r99_loop (psi_n_J : list (list C)) : result (list R * R) :=
  for_each (range 0 (n + 1)) (r99_body psi_n_J) ([], 0).

(** Cell 11, after the loop: [ly0 = r_99[0] / 9.461e15]; the cell then
    prints [s] and [ly0]. *)
Definition r99_cell (psi_n_J : list (list C)) : result (list R * R * R) :=
  '(r_99, s) <- r99_loop psi_n_J ;;
  r_0 <- getitem r_99 0 ;;
  Ok (r_99, s, r_0 / 9.461e15).

(** ** Closed forms of what the loops build *)

(** [f 0 + ... + f (k - 1)], added from the left as the loops do. *)
Fixpoint big_sum (f : nat -> R) (k : nat) : R :=
  match k with
  | O => 0
  | S k' => big_sum f k' + f k'
  end.

Definition S1 (psi_t : list C) : R :=
  big_sum (fun i => INR i ^ 2 * dr ^ 3 * Cabs (nth i psi_t C0) ^ 2) N.

Definition S2 (psi_t : list C) : R :=
  big_sum (fun i => INR i ^ 4 * dr ^ 5 * Cabs (nth i psi_t C0) ^ 2) N.

(** The entry of [V_n_J] at index [J], as line 285 of the notebook
    computes it. *)
Definition V_entry (psi_t : list C) (J : nat) : R :=
  2 * PI * om_sq * (INR J * dr) ^ 2 * S1 psi_t - S2 psi_t.

(** The entries of [A_J], [B_J] and [C_J] at index [J], branch by branch;
    [v] is the value read from [V_n_J]. *)
Definition a_entry (J : nat) : C :=
  if (J =? 0)%nat then RtoC 0
  else if (J =? N - 1)%nat then (- K * R_ * (INR (N - 2) / INR (N - 1)))%C
  else (- K * R_ * INR (J - 1) / INR J)%C.

Definition b_entry (v : R) (J : nat) : C :=
  if (J =? 0)%nat then (0.5 * (1 + P * v + 12 * K * R_))%C
  else if (J =? N - 1)%nat then (0.5 * (1 + P * v))%C
  else (0.5 * (1 + P * v + 2 * K * R_))%C.

Definition c_entry (J : nat) : C :=
  if (J =? 0)%nat then (- 6 * K * R_)%C
  else if (J =? N - 1)%nat then RtoC 0
  else (- K * R_ * INR (J + 1) / INR J)%C.

(** The entries the forward sweep appends to [B] and [D] at pass [i]. *)
Fixpoint mod_diag (A_J B_J C_J : list C) (i : nat) : C :=
  match i with
  | O => nth 0 B_J C0
  | S j => (nth i B_J C0
            - nth i A_J C0 * nth j C_J C0 / mod_diag A_J B_J C_J j)%C
  end.

Fixpoint mod_rhs (A_J B_J C_J d : list C) (i : nat) : C :=
  match i with
  | O => nth 0 d C0
  | S j => (nth i d C0
            - nth i A_J C0 * mod_rhs A_J B_J C_J d j
              / mod_diag A_J B_J C_J j)%C
  end.

(** The entry the backward sweep appends to [X] at pass [i]. *)
Fixpoint back (C_J B D : list C) (i : nat) : C :=
  match i with
  | O => (nth (N - 1) D C0 / nth (N - 1) B C0)%C
  | S j => ((nth (N - 1 - i) D C0 - nth (N - 1 - i) C_J C0 * back C_J B D j)
            / nth (N - 1 - i) B C0)%C
  end.

(** The list [X] after [X.reverse()]. *)
Definition solution (A_J B_J C_J d : list C) : list C :=
  rev (map (back C_J (map (mod_diag A_J B_J C_J) (seq 0 N))
                     (map (mod_rhs A_J B_J C_J d) (seq 0 N)))
           (seq 0 N)).

(** Left-hand side of row [i] of the tridiagonal system, the terms outside
    the matrix dropped. *)
Definition row (A_J B_J C_J X : list C) (i : nat) : C :=
  ((if (i =? 0)%nat then C0 else nth i A_J C0 * nth (i - 1) X C0)
   + nth i B_J C0 * nth i X C0
   + (if (i =? N - 1)%nat then C0 else nth i C_J C0 * nth (i + 1) X C0))%C.

(** The snapshot a successful pass of the time loop appends at step [t],
    and the snapshots of a run that starts from [psi0]. *)
Definition next_snapshot (t : nat) (psi_t : list C) : list C :=
  zip_with Cminus
    (solution (map a_entry (seq 0 N))
              (map (b_entry (V_entry psi_t t)) (seq 0 N))
              (map c_entry (seq 0 N)) psi_t)
    psi_t.

Fixpoint evolve (psi0 : list C) (t : nat) : list C :=
  match t with
  | O => psi0
  | S t' => next_snapshot t' (evolve psi0 t')
  end.

(** The summand of pass [i] of the r_99 scan over the snapshot [psi], the
    running sum after the passes [0 .. J], and what one pass of the outer
    loop appends to [r_99]. *)
Definition r99_term (psi : list C) (i : nat) : R :=
  4 * PI * (INR i * dr) ^ 2 * Cabs (nth i psi C0) ^ 2 * dr.

Definition cumulative (psi : list C) (J : nat) : R :=
  big_sum (r99_term psi) (S J).

Definition r99_entry (psi : list C) : list R :=
  match scan psi 0 0 with
  | (Some r, _, _) => [r]
  | (None, _, _) => []
  end.

(** ** The field of complex numbers *)

Lemma C_eq (z w : C) : fst z = fst w -> snd z = snd w -> z = w.
Proof. destruct z, w; simpl; intros; subst; reflexivity. Qed.

Lemma Cnorm2_pos (z : C) : z <> C0 -> 0 < fst z * fst z + snd z * snd z.
Proof.
  destruct z as [x y]; simpl; intros Hz.
  destruct (Req_dec x 0) as [Hx | Hx].
  - destruct (Req_dec y 0) as [Hy | Hy].
    + subst; exfalso; apply Hz; reflexivity.
    + nra.
  - nra.
Qed.

Lemma C_field_theory :
  field_theory C0 C1 Cplus Cmult Cminus Copp Cdiv Cinv eq.
Proof.
  constructor.
  - constructor; intros; try (apply C_eq; simpl; ring).
  - intros E; inversion E; lra.
  - reflexivity.
  - intros z Hz. pose proof (Cnorm2_pos z Hz) as Hn.
    destruct z as [x y]; simpl in *.
    apply C_eq; simpl; field; lra.
Qed.

Add Field C_field : C_field_theory.

(** ** Loops *)

Lemma range_0 (k : nat) : range 0 k = seq 0 k.
Proof. unfold range. rewrite Nat.sub_0_r. reflexivity. Qed.

Lemma for_each_app {St : Type} (l1 l2 : list nat)
  (body : nat -> St -> result St) (s : St) :
  for_each (l1 ++ l2) body s = (s' <- for_each l1 body s ;; for_each l2 body s').
Proof.
  revert s. induction l1 as [| i l1 IH]; intros s; simpl.
  - reflexivity.
  - destruct (body i s) as [s' | e]; simpl; [apply IH | reflexivity].
Qed.

Lemma for_each_seq_S {St : Type} (k : nat) (body : nat -> St -> result St)
  (s : St) :
  for_each (seq 0 (S k)) body s
  = (s' <- for_each (seq 0 k) body s ;; body k s').
Proof.
  rewrite seq_S, for_each_app. simpl.
  destruct (for_each (seq 0 k) body s) as [s' | e]; simpl; [| reflexivity].
  destruct (body k s'); reflexivity.
Qed.

(** A loop whose passes all succeed and keep an invariant. *)
Lemma for_each_invariant {St : Type} (I : nat -> St -> Prop)
  (body : nat -> St -> result St) (s : St) (k : nat) :
  I O s ->
  (forall i st, (i < k)%nat -> I i st ->
     exists st', body i st = Ok st' /\ I (S i) st') ->
  exists st', for_each (seq 0 k) body s = Ok st' /\ I k st'.
Proof.
  intros H0 Hstep. induction k as [| k IH].
  - exists s. split; [reflexivity | exact H0].
  - destruct IH as [st [Hk HI]].
    + intros i st Hi. apply Hstep. lia.
    + destruct (Hstep k st (Nat.lt_succ_diag_r k) HI) as [st' [Hb HI']].
      exists st'. rewrite for_each_seq_S, Hk. simpl. split; assumption.
Qed.

(** A loop stops at the first pass that raises. *)
Lemma for_each_raise {St : Type} (body : nat -> St -> result St) (s st : St)
  (i k : nat) (e : exn) :
  (i < k)%nat ->
  for_each (seq 0 i) body s = Ok st ->
  body i st = Raise e ->
  for_each (seq 0 k) body s = Raise e.
Proof.
  intros Hi Hpre Hb.
  replace k with (i + S (k - i - 1))%nat by lia.
  rewrite seq_app, for_each_app, Hpre. simpl. rewrite Hb. reflexivity.
Qed.

Lemma getitem_nth {A : Type} (l : list A) (i : nat) (d : A) :
  (i < length l)%nat -> getitem l i = Ok (nth i l d).
Proof.
  intros Hi. unfold getitem.
  rewrite (nth_error_nth' l d Hi). reflexivity.
Qed.

Lemma getitem_out {A : Type} (l : list A) (i : nat) :
  (length l <= i)%nat -> getitem l i = Raise IndexError.
Proof.
  intros Hi. unfold getitem.
  apply nth_error_None in Hi. rewrite Hi. reflexivity.
Qed.

Lemma map_seq_S {A : Type} (f : nat -> A) (k : nat) :
  map f (seq 0 (S k)) = map f (seq 0 k) ++ [f k].
Proof. rewrite seq_S, map_app. reflexivity. Qed.

Lemma nth_map_seq {A : Type} (f : nat -> A) (k i : nat) (d : A) :
  (i < k)%nat -> nth i (map f (seq 0 k)) d = f i.
Proof.
  intros Hi. rewrite (nth_indep _ d (f 0%nat)).
  - rewrite map_nth, seq_nth by assumption. reflexivity.
  - rewrite length_map, length_seq. assumption.
Qed.

Lemma getitem_map_seq {A : Type} (f : nat -> A) (k i : nat) :
  (i < k)%nat -> getitem (map f (seq 0 k)) i = Ok (f i).
Proof.
  intros Hi. rewrite (getitem_nth _ _ (f 0%nat)).
  - rewrite nth_map_seq by assumption. reflexivity.
  - rewrite length_map, length_seq. assumption.
Qed.

Lemma truediv_ok (z w : C) : w <> C0 -> truediv z w = Ok (z / w)%C.
Proof.
  intros Hw. unfold truediv. destruct (Ceq_dec w C0); [contradiction | reflexivity].
Qed.

Lemma truediv_zero (z : C) : truediv z C0 = Raise ZeroDivisionError.
Proof.
  unfold truediv. destruct (Ceq_dec C0 C0) as [_ | H]; [reflexivity |].
  exfalso. apply H. reflexivity.
Qed.

(** ** The potential *)

Lemma sums_prefix (psi_t : list C) (k : nat) :
  (k <= length psi_t)%nat ->
  for_each (seq 0 k) (sums_body psi_t) (0, 0)
  = Ok (big_sum (fun i => INR i ^ 2 * dr ^ 3 * Cabs (nth i psi_t C0) ^ 2) k,
        big_sum (fun i => INR i ^ 4 * dr ^ 5 * Cabs (nth i psi_t C0) ^ 2) k).
Proof.
  induction k as [| k IH]; intros Hk.
  - reflexivity.
  - rewrite for_each_seq_S, IH by lia. simpl.
    rewrite (getitem_nth _ _ C0) by lia. reflexivity.
Qed.

Lemma potential_sums_ok (psi_t : list C) :
  (N <= length psi_t)%nat ->
  potential_sums psi_t = Ok (S1 psi_t, S2 psi_t).
Proof.
  intros Hlen. unfold potential_sums. rewrite range_0.
  apply sums_prefix. assumption.
Qed.

Lemma potential_prefix (psi_t : list C) (k : nat) :
  (N <= length psi_t)%nat ->
  for_each (seq 0 k) (potential_body psi_t) []
  = Ok (map (V_entry psi_t) (seq 0 k)).
Proof.
  intros Hlen. induction k as [| k IH].
  - reflexivity.
  - rewrite for_each_seq_S, IH, map_seq_S. unfold potential_body, bind.
    rewrite potential_sums_ok by assumption. reflexivity.
Qed.

Lemma potential_ok (psi_t : list C) :
  (N <= length psi_t)%nat ->
  potential psi_t = Ok (map (V_entry psi_t) (seq 0 N)).
Proof.
  intros Hlen. unfold potential. rewrite range_0.
  apply potential_prefix. assumption.
Qed.

(** ** The tridiagonal coefficients *)

Lemma RtoC_neq_0 (x : R) : x <> 0 -> RtoC x <> C0.
Proof. intros Hx E. inversion E. contradiction. Qed.

Lemma INR_C_neq_0 (k : nat) : k <> O -> RtoC (INR k) <> C0.
Proof. intros Hk. apply RtoC_neq_0, not_0_INR, Hk. Qed.

Lemma tridiagonal_prefix (V_n_J : list R) (t : nat) (v : R) (k : nat) :
  getitem V_n_J t = Ok v ->
  for_each (seq 0 k) (tridiagonal_body V_n_J t) ([], [], [])
  = Ok (map a_entry (seq 0 k), map (b_entry v) (seq 0 k),
        map c_entry (seq 0 k)).
Proof.
  intros Hv. induction k as [| k IH].
  - reflexivity.
  - rewrite for_each_seq_S, IH, !map_seq_S.
    unfold bind, tridiagonal_body, a_entry, b_entry, c_entry.
    destruct (Nat.eqb_spec k 0) as [E0 | E0].
    + rewrite Hv. reflexivity.
    + destruct (Nat.eqb_spec k (N - 1)) as [E1 | E1].
      * rewrite truediv_ok by (apply INR_C_neq_0; lia).
        rewrite Hv. reflexivity.
      * rewrite !truediv_ok by (apply INR_C_neq_0; lia).
        rewrite Hv. reflexivity.
Qed.

Lemma tridiagonal_ok (V_n_J : list R) (t : nat) (v : R) :
  getitem V_n_J t = Ok v ->
  tridiagonal V_n_J t
  = Ok (map a_entry (seq 0 N), map (b_entry v) (seq 0 N),
        map c_entry (seq 0 N)).
Proof.
  intros Hv. unfold tridiagonal. rewrite range_0.
  apply tridiagonal_prefix. assumption.
Qed.

Lemma tridiagonal_index_error (V_n_J : list R) (t : nat) :
  (1 <= N)%nat -> (length V_n_J <= t)%nat ->
  tridiagonal V_n_J t = Raise IndexError.
Proof.
  intros HN Ht. unfold tridiagonal. rewrite range_0.
  apply (for_each_raise _ _ ([], [], []) 0 N); [lia | reflexivity |].
  unfold tridiagonal_body. simpl. rewrite getitem_out by assumption.
  reflexivity.
Qed.

(** ** The Thomas algorithm *)

Lemma getitem_app_l {A : Type} (l : list A) (x : A) (i : nat) :
  (i < length l)%nat -> getitem (l ++ [x]) i = getitem l i.
Proof.
  intros Hi. unfold getitem. rewrite nth_error_app1 by assumption.
  reflexivity.
Qed.

Section Sweeps.

Variables A_J B_J C_J d : list C.

Let Bm := mod_diag A_J B_J C_J.
Let Dm := mod_rhs A_J B_J C_J d.

Lemma forward_prefix (k : nat) :
  (k <= length A_J)%nat -> (k <= length B_J)%nat ->
  (k <= length C_J)%nat -> (k <= length d)%nat ->
  (forall i, (S i < k)%nat -> Bm i <> C0) ->
  for_each (seq 0 k) (forward_body A_J B_J C_J d) ([], [])
  = Ok (map Bm (seq 0 k), map Dm (seq 0 k)).
Proof.
  induction k as [| k IH]; intros HA HB HC Hd Hnz.
  - reflexivity.
  - rewrite for_each_seq_S, IH; try lia.
    2:{ intros i Hi. apply Hnz. lia. }
    rewrite !map_seq_S. unfold bind at 1. unfold forward_body.
    destruct k as [| j].
    + simpl. rewrite (getitem_nth B_J 0 C0), (getitem_nth d 0 C0) by lia.
      reflexivity.
    + replace (S j =? 0)%nat with false by reflexivity.
      replace (S j - 1)%nat with j by lia.
      rewrite (getitem_nth B_J (S j) C0), (getitem_nth A_J (S j) C0),
        (getitem_nth C_J j C0), (getitem_nth d (S j) C0) by lia.
      rewrite getitem_map_seq by lia. cbn [bind].
      rewrite truediv_ok by (apply Hnz; lia). cbn [bind].
      rewrite getitem_app_l by (rewrite length_map, length_seq; lia).
      rewrite !getitem_map_seq by lia. cbn [bind].
      rewrite truediv_ok by (apply Hnz; lia).
      reflexivity.
Qed.

Lemma forward_sweep_ok :
  (N <= length A_J)%nat -> (N <= length B_J)%nat ->
  (N <= length C_J)%nat -> (N <= length d)%nat ->
  (forall i, (S i < N)%nat -> Bm i <> C0) ->
  forward_sweep A_J B_J C_J d = Ok (map Bm (seq 0 N), map Dm (seq 0 N)).
Proof.
  intros. unfold forward_sweep. rewrite range_0.
  apply forward_prefix; assumption.
Qed.

Lemma forward_sweep_zero (i : nat) :
  (N <= length A_J)%nat -> (N <= length B_J)%nat ->
  (N <= length C_J)%nat -> (N <= length d)%nat ->
  (S i < N)%nat -> (forall j, (j < i)%nat -> Bm j <> C0) -> Bm i = C0 ->
  forward_sweep A_J B_J C_J d = Raise ZeroDivisionError.
Proof.
  intros HA HB HC Hd Hi Hnz Hz. unfold forward_sweep. rewrite range_0.
  apply (for_each_raise _ _ (map Bm (seq 0 (S i)), map Dm (seq 0 (S i)))
           (S i) N); [assumption | |].
  - apply forward_prefix; try lia. intros j Hj. apply Hnz. lia.
  - unfold forward_body.
    replace (S i =? 0)%nat with false by reflexivity.
    replace (S i - 1)%nat with i by lia.
    rewrite (getitem_nth B_J (S i) C0), (getitem_nth A_J (S i) C0),
      (getitem_nth C_J i C0) by lia.
    rewrite getitem_map_seq by lia.
    unfold bind. fold Bm. rewrite Hz, truediv_zero. reflexivity.
Qed.

End Sweeps.

Lemma backward_prefix (C_J B D : list C) (k : nat) :
  (k <= N)%nat ->
  (N <= length C_J)%nat -> (N <= length B)%nat -> (N <= length D)%nat ->
  (forall i, (i < k)%nat -> nth (N - 1 - i) B C0 <> C0) ->
  for_each (seq 0 k) (backward_body C_J B D) []
  = Ok (map (back C_J B D) (seq 0 k)).
Proof.
  induction k as [| k IH]; intros Hk HC HB HD Hnz.
  - reflexivity.
  - rewrite for_each_seq_S, IH; try lia.
    2:{ intros i Hi. apply Hnz. lia. }
    rewrite map_seq_S. unfold bind at 1. unfold backward_body.
    destruct k as [| j].
    + replace (N - 1 - 0)%nat with (N - 1)%nat by lia. simpl.
      rewrite (getitem_nth D _ C0), (getitem_nth B _ C0) by lia.
      unfold bind. rewrite truediv_ok.
      * reflexivity.
      * specialize (Hnz 0%nat). replace (N - 1 - 0)%nat with (N - 1)%nat in Hnz by lia.
        apply Hnz. lia.
    + replace (S j =? 0)%nat with false by reflexivity.
      replace (S j - 1)%nat with j by lia.
      rewrite (getitem_nth D _ C0), (getitem_nth C_J _ C0),
        (getitem_nth B _ C0) by lia.
      rewrite getitem_map_seq by lia.
      unfold bind. rewrite truediv_ok by (apply Hnz; lia).
      reflexivity.
Qed.

Lemma thomas_ok (A_J B_J C_J d : list C) :
  (N <= length A_J)%nat -> (N <= length B_J)%nat ->
  (N <= length C_J)%nat -> (N <= length d)%nat ->
  (forall i, (i < N)%nat -> mod_diag A_J B_J C_J i <> C0) ->
  thomas A_J B_J C_J d = Ok (solution A_J B_J C_J d).
Proof.
  intros HA HB HC Hd Hnz. unfold thomas.
  rewrite forward_sweep_ok; try assumption.
  2:{ intros i Hi. apply Hnz. lia. }
  cbn [bind]. unfold backward_sweep. rewrite range_0.
  rewrite backward_prefix; try assumption;
    try (rewrite length_map, length_seq); try lia.
  - reflexivity.
  - intros i Hi. rewrite nth_map_seq by lia. apply Hnz. lia.
Qed.

Lemma solution_length (A_J B_J C_J d : list C) :
  length (solution A_J B_J C_J d) = N.
Proof.
  unfold solution. rewrite length_rev, length_map, length_seq. reflexivity.
Qed.

Lemma solution_nth (A_J B_J C_J d : list C) (i : nat) :
  (i < N)%nat ->
  nth i (solution A_J B_J C_J d) C0
  = back C_J (map (mod_diag A_J B_J C_J) (seq 0 N))
             (map (mod_rhs A_J B_J C_J d) (seq 0 N)) (N - 1 - i).
Proof.
  intros Hi. unfold solution.
  rewrite rev_nth by (rewrite length_map, length_seq; assumption).
  rewrite length_map, length_seq.
  replace (N - S i)%nat with (N - 1 - i)%nat by lia.
  apply nth_map_seq. lia.
Qed.

Lemma solution_last (A_J B_J C_J d : list C) :
  (1 <= N)%nat ->
  nth (N - 1) (solution A_J B_J C_J d) C0
  = (mod_rhs A_J B_J C_J d (N - 1) / mod_diag A_J B_J C_J (N - 1))%C.
Proof.
  intros HN. rewrite solution_nth by lia.
  replace (N - 1 - (N - 1))%nat with 0%nat by lia. simpl.
  rewrite !nth_map_seq by lia. reflexivity.
Qed.

Lemma solution_step (A_J B_J C_J d : list C) (i : nat) :
  (S i < N)%nat ->
  nth i (solution A_J B_J C_J d) C0
  = ((mod_rhs A_J B_J C_J d i
      - nth i C_J C0 * nth (S i) (solution A_J B_J C_J d) C0)
     / mod_diag A_J B_J C_J i)%C.
Proof.
  intros Hi. rewrite !solution_nth by lia.
  replace (N - 1 - i)%nat with (S (N - 1 - S i)) by lia.
  cbn [back].
  replace (N - 1 - S (N - 1 - S i))%nat with i by lia.
  rewrite !nth_map_seq by lia. reflexivity.
Qed.

(** The algebra of one row: elimination followed by substitution gives
    back the original equation. *)
Lemma first_row_algebra (bi ci di x1 : C) :
  bi <> C0 ->
  (bi * ((di - ci * x1) / bi) + ci * x1 = di)%C.
Proof. intros Hb. field. exact Hb. Qed.

Lemma inner_row_algebra (ai bi ci di Bj Dj cj x1 : C) :
  Bj <> C0 ->
  (bi - ai * cj / Bj)%C <> C0 ->
  (ai * ((Dj - cj * (((di - ai * Dj / Bj) - ci * x1) / (bi - ai * cj / Bj)))
         / Bj)
   + bi * (((di - ai * Dj / Bj) - ci * x1) / (bi - ai * cj / Bj))
   + ci * x1 = di)%C.
Proof.
  intros HBj HBi.
  assert (Hden : (bi * Bj - ai * cj)%C <> C0).
  { intros E. apply HBi.
    transitivity ((bi * Bj - ai * cj) / Bj)%C; [field; exact HBj |].
    rewrite E. field. exact HBj. }
  field. split; assumption.
Qed.

Lemma last_row_algebra (ai bi di Bj Dj cj : C) :
  Bj <> C0 ->
  (bi - ai * cj / Bj)%C <> C0 ->
  (ai * ((Dj - cj * ((di - ai * Dj / Bj) / (bi - ai * cj / Bj))) / Bj)
   + bi * ((di - ai * Dj / Bj) / (bi - ai * cj / Bj))
   + C0 = di)%C.
Proof.
  intros HBj HBi.
  assert (Hden : (bi * Bj - ai * cj)%C <> C0).
  { intros E. apply HBi.
    transitivity ((bi * Bj - ai * cj) / Bj)%C; [field; exact HBj |].
    rewrite E. field. exact HBj. }
  field. split; assumption.
Qed.

(** C4 (exact arithmetic).  For coefficient lists and a right-hand side of
    length [N], when every modified diagonal entry [B_i] of the forward
    sweep is non-zero, the Thomas algorithm returns a list [X] of length [N]
    that satisfies every row of the tridiagonal system
    [a_i X_(i-1) + b_i X_i + c_i X_(i+1) = d_i], the terms outside the
    matrix dropped in the first and the last row. *)
Theorem thomas_solves_system (A_J B_J C_J d : list C) :
  length A_J = N -> length B_J = N -> length C_J = N -> length d = N ->
  (forall i, (i < N)%nat -> mod_diag A_J B_J C_J i <> C0) ->
  exists X,
    thomas A_J B_J C_J d = Ok X /\ length X = N /\
    forall i, (i < N)%nat -> row A_J B_J C_J X i = nth i d C0.
Proof.
  intros HA HB HC Hd Hnz. exists (solution A_J B_J C_J d).
  split; [apply thomas_ok; try lia; assumption |].
  split; [apply solution_length |].
  intros i Hi. unfold row.
  destruct i as [| j].
  - pose proof (Hnz 0%nat Hi) as H0. cbn [mod_diag] in H0.
    destruct (Nat.eqb_spec 0 (N - 1)) as [E | E];
      change (0 =? 0)%nat with true; cbv iota.
    + pose proof (solution_last A_J B_J C_J d Hi) as HX.
      rewrite <- E in HX. cbn [mod_diag mod_rhs] in HX. rewrite HX.
      field. exact H0.
    + rewrite (solution_step A_J B_J C_J d 0) by lia.
      cbn [mod_diag mod_rhs]. replace (0 + 1)%nat with 1%nat by lia.
      field. exact H0.
  - replace (S j =? 0)%nat with false by reflexivity.
    replace (S j - 1)%nat with j by lia.
    assert (HBj : mod_diag A_J B_J C_J j <> C0) by (apply Hnz; lia).
    pose proof (Hnz (S j) Hi) as HBi. cbn [mod_diag] in HBi.
    rewrite (solution_step A_J B_J C_J d j) by lia.
    destruct (Nat.eqb_spec (S j) (N - 1)) as [E | E]; cbv iota.
    + assert (HX : nth (S j) (solution A_J B_J C_J d) C0
                   = (mod_rhs A_J B_J C_J d (S j)
                      / mod_diag A_J B_J C_J (S j))%C).
      { rewrite E. apply solution_last. lia. }
      rewrite HX. cbn [mod_diag mod_rhs].
      apply last_row_algebra; assumption.
    + rewrite (solution_step A_J B_J C_J d (S j)) by lia.
      cbn [mod_diag mod_rhs]. replace (S j + 1)%nat with (S (S j)) by lia.
      apply inner_row_algebra; assumption.
Qed.

Lemma first_zero (f : nat -> C) (k : nat) :
  (exists i, (i < k)%nat /\ f i = C0 /\ forall j, (j < i)%nat -> f j <> C0)
  \/ (forall i, (i < k)%nat -> f i <> C0).
Proof.
  induction k as [| k [[i [Hi [Hz Hmin]]] | Hall]].
  - right. intros i Hi. lia.
  - left. exists i. repeat split; try assumption. lia.
  - destruct (Ceq_dec (f k) C0) as [Hz | Hnz].
    + left. exists k. repeat split; try assumption. lia.
    + right. intros i Hi.
      destruct (Nat.eq_dec i k) as [-> | Hne]; [assumption |].
      apply Hall. lia.
Qed.

(** When the forward sweep returns, its lists [B] and [D] are the closed
    forms. *)
Lemma forward_sweep_inv (A_J B_J C_J d B D : list C) :
  (N <= length A_J)%nat -> (N <= length B_J)%nat ->
  (N <= length C_J)%nat -> (N <= length d)%nat ->
  forward_sweep A_J B_J C_J d = Ok (B, D) ->
  B = map (mod_diag A_J B_J C_J) (seq 0 N)
  /\ D = map (mod_rhs A_J B_J C_J d) (seq 0 N).
Proof.
  intros HA HB HC Hd Hrun.
  destruct (first_zero (mod_diag A_J B_J C_J) (N - 1))
    as [[i [Hi [Hz Hmin]]] | Hall].
  - rewrite (forward_sweep_zero A_J B_J C_J d i) in Hrun;
      try assumption; [discriminate | lia].
  - rewrite forward_sweep_ok in Hrun; try assumption.
    + inversion Hrun. split; reflexivity.
    + intros i Hi. apply Hall. lia.
Qed.

Lemma thomas_zero_division (A_J B_J C_J d : list C) (i : nat) :
  (N <= length A_J)%nat -> (N <= length B_J)%nat ->
  (N <= length C_J)%nat -> (N <= length d)%nat ->
  (i < N)%nat ->
  (forall j, (j < i)%nat -> mod_diag A_J B_J C_J j <> C0) ->
  mod_diag A_J B_J C_J i = C0 ->
  thomas A_J B_J C_J d = Raise ZeroDivisionError.
Proof.
  intros HA HB HC Hd Hi Hnz Hz. unfold thomas.
  destruct (Nat.eq_dec (S i) N) as [E | E].
  - rewrite forward_sweep_ok; try assumption.
    2:{ intros j Hj. apply Hnz. lia. }
    cbn [bind]. unfold backward_sweep. rewrite range_0.
    rewrite (for_each_raise _ _ [] 0 N ZeroDivisionError);
      [reflexivity | lia | reflexivity |].
    unfold backward_body. change (0 =? 0)%nat with true. cbv iota.
    replace (N - 1 - 0)%nat with i by lia.
    rewrite !getitem_map_seq by lia. cbn [bind].
    rewrite Hz, truediv_zero. reflexivity.
  - rewrite (forward_sweep_zero A_J B_J C_J d i); try assumption;
      [reflexivity | lia].
Qed.

(** C5, as the notebook has it.  The Thomas algorithm makes no test of its
    own on the modified diagonal.  On lists of length [N] it stops with
    Python's division error exactly when some modified diagonal entry is
    exactly zero; it raises nothing else, and with every entry non-zero,
    however small, it divides and returns the solution. *)
Theorem thomas_fails_iff_exact_zero (A_J B_J C_J d : list C) :
  length A_J = N -> length B_J = N -> length C_J = N -> length d = N ->
  (thomas A_J B_J C_J d = Raise ZeroDivisionError
   <-> exists i, (i < N)%nat /\ mod_diag A_J B_J C_J i = C0)
  /\ (forall e, thomas A_J B_J C_J d = Raise e -> e = ZeroDivisionError)
  /\ ((forall i, (i < N)%nat -> mod_diag A_J B_J C_J i <> C0) ->
      thomas A_J B_J C_J d = Ok (solution A_J B_J C_J d)).
Proof.
  intros HA HB HC Hd.
  assert (Hok : (forall i, (i < N)%nat -> mod_diag A_J B_J C_J i <> C0) ->
                thomas A_J B_J C_J d = Ok (solution A_J B_J C_J d)).
  { intros Hnz. apply thomas_ok; try lia. assumption. }
  assert (Hraise : (exists i, (i < N)%nat /\ mod_diag A_J B_J C_J i = C0) ->
                   thomas A_J B_J C_J d = Raise ZeroDivisionError).
  { intros [i [Hi Hz]].
    destruct (first_zero (mod_diag A_J B_J C_J) (S i))
      as [[i0 [Hi0 [Hz0 Hmin]]] | Hall].
    - apply (thomas_zero_division A_J B_J C_J d i0); try lia; assumption.
    - exfalso. apply (Hall i); [lia | assumption]. }
  destruct (first_zero (mod_diag A_J B_J C_J) N)
    as [[i0 [Hi0 [Hz0 Hmin]]] | Hall].
  - assert (Hr : thomas A_J B_J C_J d = Raise ZeroDivisionError).
    { apply Hraise. exists i0. split; assumption. }
    repeat split.
    + intros _. exists i0. split; assumption.
    + exact Hraise.
    + intros e He. rewrite Hr in He. inversion He. reflexivity.
    + exact Hok.
  - pose proof (Hok Hall) as Hr.
    repeat split.
    + intros He. rewrite Hr in He. discriminate.
    + exact Hraise.
    + intros e He. rewrite Hr in He. discriminate.
    + exact Hok.
Qed.

(** ** The divisors of a time step are never zero

    [K] and [P] are imaginary and [R_] and the potential are real, so every
    diagonal entry has real part [0.5], and the products [a_i * c_(i-1)]
    are real and not positive: the modified diagonal keeps a real part of
    at least [0.5]. *)

Lemma RtoC_div (x y : R) : y <> 0 -> (RtoC x / RtoC y)%C = RtoC (x / y).
Proof. intros Hy. apply C_eq; simpl; field; assumption. Qed.

Lemma Re_pos_neq_0 (z : C) : 0 < Re z -> z <> C0.
Proof. intros Hz E. rewrite E in Hz. simpl in Hz. lra. Qed.

Lemma mod_diag_Re_pos (A_J B_J C_J : list C) :
  (forall i, (i < N)%nat -> 0 < Re (nth i B_J C0)) ->
  (forall j, (S j < N)%nat ->
     exists r, 0 <= r /\ (nth (S j) A_J C0 * nth j C_J C0)%C = (- r, 0)) ->
  forall i, (i < N)%nat -> 0 < Re (mod_diag A_J B_J C_J i).
Proof.
  intros Hb Hac i. induction i as [| j IH]; intros Hi.
  - simpl. apply Hb. assumption.
  - cbn [mod_diag]. destruct (Hac j Hi) as [r [Hr Eac]]. rewrite Eac.
    specialize (IH ltac:(lia)). specialize (Hb (S j) Hi).
    destruct (mod_diag A_J B_J C_J j) as [x y].
    destruct (nth (S j) B_J C0) as [u w].
    unfold Re in *. simpl in *.
    assert (Hn : 0 < x * x + y * y) by nra.
    assert (Hq : 0 <= r * x / (x * x + y * y)).
    { apply Rmult_le_pos; [nra | left; apply Rinv_0_lt_compat; exact Hn]. }
    assert (E : u + - (- r * (x / (x * x + y * y))
                       - 0 * (- y / (x * x + y * y)))
                = u + r * x / (x * x + y * y)) by (field; lra).
    rewrite E. lra.
Qed.

Lemma b_entry_Re (v : R) (J : nat) : Re (b_entry v J) = 0.5.
Proof.
  unfold b_entry, P, K, Re.
  destruct (J =? 0)%nat; [| destruct (J =? N - 1)%nat]; simpl; ring.
Qed.

Lemma a_entry_imag (J : nat) :
  (1 <= J)%nat ->
  exists r, 0 <= r /\ a_entry J = (0, - (h / (8 * M) * R_ * r)).
Proof.
  intros HJ. unfold a_entry.
  destruct (Nat.eqb_spec J 0) as [E0 | E0]; [lia |].
  destruct (Nat.eqb_spec J (N - 1)) as [E1 | E1].
  - exists (INR (N - 2) / INR (N - 1)). split.
    + apply Rmult_le_pos; [apply pos_INR |].
      left. apply Rinv_0_lt_compat, lt_0_INR. lia.
    + rewrite RtoC_div by (apply not_0_INR; lia).
      unfold K. apply C_eq; simpl; ring.
  - exists (INR (J - 1) / INR J). split.
    + apply Rmult_le_pos; [apply pos_INR |].
      left. apply Rinv_0_lt_compat, lt_0_INR. lia.
    + assert (HJ0 : INR J <> 0) by (apply not_0_INR; lia).
      unfold K. generalize (h / (8 * M)). intros k.
      apply C_eq; simpl; field; assumption.
Qed.

Lemma c_entry_imag (J : nat) :
  (S J < N)%nat ->
  exists r, 0 <= r /\ c_entry J = (0, - (h / (8 * M) * R_ * r)).
Proof.
  intros HJ. unfold c_entry.
  destruct (Nat.eqb_spec J 0) as [E0 | E0].
  - exists 6. split; [lra |]. unfold K. apply C_eq; simpl; ring.
  - destruct (Nat.eqb_spec J (N - 1)) as [E1 | E1]; [lia |].
    exists (INR (J + 1) / INR J). split.
    + apply Rmult_le_pos; [apply pos_INR |].
      left. apply Rinv_0_lt_compat, lt_0_INR. lia.
    + assert (HJ0 : INR J <> 0) by (apply not_0_INR; lia).
      unfold K. generalize (h / (8 * M)). intros k.
      apply C_eq; simpl; field; assumption.
Qed.

Lemma built_diag_nonzero (v : R) (i : nat) :
  (i < N)%nat ->
  mod_diag (map a_entry (seq 0 N)) (map (b_entry v) (seq 0 N))
           (map c_entry (seq 0 N)) i <> C0.
Proof.
  intros Hi. apply Re_pos_neq_0. apply mod_diag_Re_pos; try assumption.
  - intros j Hj. rewrite nth_map_seq by assumption.
    rewrite b_entry_Re. lra.
  - intros j Hj. rewrite !nth_map_seq by lia.
    destruct (a_entry_imag (S j)) as [ra [Hra Ea]]; [lia |].
    destruct (c_entry_imag j Hj) as [rc [Hrc Ec]].
    rewrite Ea, Ec.
    exists ((h / (8 * M) * R_) * (h / (8 * M) * R_) * (ra * rc)). split.
    + apply Rmult_le_pos; [nra | apply Rmult_le_pos; assumption].
    + apply C_eq; simpl; ring.
Qed.

(** ** The time loop *)

Lemma zip_with_length {A B D : Type} (f : A -> B -> D) (x : list A)
  (y : list B) :
  length x = length y -> length (zip_with f x y) = length x.
Proof.
  revert y. induction x as [| z x IH]; intros [| w y] Hl; simpl in *;
    try reflexivity; try discriminate.
  f_equal. apply IH. lia.
Qed.

Lemma array_sub_same_length (x y : list C) :
  length x = length y -> array_sub x y = Ok (zip_with Cminus x y).
Proof.
  intros Hl. unfold array_sub. rewrite Hl, Nat.eqb_refl. reflexivity.
Qed.

Lemma next_snapshot_length (t : nat) (psi_t : list C) :
  length psi_t = N -> length (next_snapshot t psi_t) = N.
Proof.
  intros Hl. unfold next_snapshot.
  rewrite zip_with_length; rewrite solution_length; [reflexivity | lia].
Qed.

Lemma evolve_length (psi0 : list C) (t : nat) :
  length psi0 = N -> length (evolve psi0 t) = N.
Proof.
  intros Hl. induction t as [| t IH]; simpl.
  - assumption.
  - apply next_snapshot_length. assumption.
Qed.

(** A step [t < N] on a snapshot of length [N] succeeds. *)
Lemma time_step_ok (t : nat) (psi_n_J : list (list C)) (psi_t : list C) :
  (t < N)%nat -> getitem psi_n_J t = Ok psi_t -> length psi_t = N ->
  exists V_n_J A_J B_J C_J X,
    potential psi_t = Ok V_n_J /\
    tridiagonal V_n_J t = Ok (A_J, B_J, C_J) /\
    thomas A_J B_J C_J psi_t = Ok X /\
    next_snapshot t psi_t = zip_with Cminus X psi_t /\
    time_step t psi_n_J = Ok (psi_n_J ++ [next_snapshot t psi_t]).
Proof.
  intros Ht Hget Hl.
  assert (HV : potential psi_t = Ok (map (V_entry psi_t) (seq 0 N)))
    by (apply potential_ok; lia).
  assert (HT : tridiagonal (map (V_entry psi_t) (seq 0 N)) t
               = Ok (map a_entry (seq 0 N),
                     map (b_entry (V_entry psi_t t)) (seq 0 N),
                     map c_entry (seq 0 N)))
    by (apply tridiagonal_ok, getitem_map_seq; assumption).
  assert (HX : thomas (map a_entry (seq 0 N))
                 (map (b_entry (V_entry psi_t t)) (seq 0 N))
                 (map c_entry (seq 0 N)) psi_t
               = Ok (solution (map a_entry (seq 0 N))
                       (map (b_entry (V_entry psi_t t)) (seq 0 N))
                       (map c_entry (seq 0 N)) psi_t)).
  { apply thomas_ok; rewrite ?length_map, ?length_seq; try lia.
    intros i Hi. apply built_diag_nonzero. assumption. }
  eexists _, _, _, _, _.
  split; [exact HV |]. split; [exact HT |]. split; [exact HX |].
  split; [reflexivity |].
  unfold time_step. rewrite Hget. cbn [bind]. rewrite HV. cbn [bind].
  rewrite HT. cbn [bind]. rewrite HX. cbn [bind].
  rewrite array_sub_same_length by (rewrite solution_length; lia).
  reflexivity.
Qed.

(** A step [t >= N] reads [V_n_J[t]] outside the list. *)
Lemma time_step_index_error (t : nat) (psi_n_J : list (list C))
  (psi_t : list C) :
  (1 <= N)%nat -> (N <= t)%nat ->
  getitem psi_n_J t = Ok psi_t -> length psi_t = N ->
  time_step t psi_n_J = Raise IndexError.
Proof.
  intros HN Ht Hget Hl. unfold time_step. rewrite Hget. cbn [bind].
  rewrite potential_ok by lia. cbn [bind].
  rewrite tridiagonal_index_error;
    [reflexivity | assumption | rewrite length_map, length_seq; assumption].
Qed.

(** An exception of the Thomas algorithm ends the step, and with it the
    loop: nothing is appended. *)
Lemma time_step_aborts (t : nat) (psi_n_J : list (list C))
  (psi_t : list C) (V_n_J : list R) (A_J B_J C_J : list C) (e : exn) :
  getitem psi_n_J t = Ok psi_t ->
  potential psi_t = Ok V_n_J ->
  tridiagonal V_n_J t = Ok (A_J, B_J, C_J) ->
  thomas A_J B_J C_J psi_t = Raise e ->
  time_step t psi_n_J = Raise e.
Proof.
  intros Hget HV HT HX. unfold time_step.
  rewrite Hget. cbn [bind]. rewrite HV. cbn [bind].
  rewrite HT. cbn [bind]. rewrite HX. reflexivity.
Qed.

Lemma time_loop_prefix (psi0 : list C) (k : nat) :
  length psi0 = N -> (k <= N)%nat ->
  for_each (seq 0 k) time_step [psi0]
  = Ok (map (evolve psi0) (seq 0 (S k))).
Proof.
  intros Hl. induction k as [| k IH]; intros Hk.
  - reflexivity.
  - rewrite for_each_seq_S, IH by lia. cbn [bind].
    destruct (time_step_ok k (map (evolve psi0) (seq 0 (S k))) (evolve psi0 k))
      as (V & A & B & Cc & X & _ & _ & _ & _ & Hstep).
    + lia.
    + apply getitem_map_seq. lia.
    + apply evolve_length. assumption.
    + rewrite Hstep. rewrite (map_seq_S _ (S k)). reflexivity.
Qed.

Lemma time_loop_ok (psi0 : list C) :
  length psi0 = N -> (n <= N)%nat ->
  time_loop [psi0] = Ok (map (evolve psi0) (seq 0 (S n))).
Proof.
  intros Hl Hn. unfold time_loop. rewrite range_0.
  apply time_loop_prefix; assumption.
Qed.

Lemma time_loop_beyond_N (psi0 : list C) :
  (1 <= N)%nat -> length psi0 = N -> (N < n)%nat ->
  time_loop [psi0] = Raise IndexError.
Proof.
  intros HN Hl Hn. unfold time_loop. rewrite range_0.
  apply (for_each_raise _ _ (map (evolve psi0) (seq 0 (S N))) N n);
    [assumption | apply time_loop_prefix; [assumption | lia] |].
  apply (time_step_index_error N _ (evolve psi0 N)); try lia.
  - apply getitem_map_seq. lia.
  - apply evolve_length. assumption.
Qed.

(** What a run of [n <= N] steps gives: [n + 1] snapshots, each one after
    the first the Thomas solution for its predecessor minus the
    predecessor, the system being the one the coefficient loop builds at
    that step. *)
Lemma time_loop_completed_steps (psi0 : list C) :
  length psi0 = N -> (n <= N)%nat ->
  exists hist,
    time_loop [psi0] = Ok hist /\ length hist = S n /\
    nth 0 hist [] = psi0 /\
    forall t, (t < n)%nat ->
      exists V_n_J A_J B_J C_J X,
        potential (nth t hist []) = Ok V_n_J /\
        tridiagonal V_n_J t = Ok (A_J, B_J, C_J) /\
        thomas A_J B_J C_J (nth t hist []) = Ok X /\
        nth (S t) hist [] = zip_with Cminus X (nth t hist []).
Proof.
  intros Hl Hn. exists (map (evolve psi0) (seq 0 (S n))).
  split; [apply time_loop_ok; assumption |].
  split; [rewrite length_map, length_seq; reflexivity |].
  split; [reflexivity |].
  intros t Ht. rewrite !nth_map_seq by lia.
  destruct (time_step_ok t (map (evolve psi0) (seq 0 (S t))) (evolve psi0 t))
    as (V & A & B & Cc & X & HV & HT & HX & Hnext & _).
  - lia.
  - apply getitem_map_seq. lia.
  - apply evolve_length. assumption.
  - exists V, A, B, Cc, X. repeat split; try assumption.
Qed.

(** C9.  The coefficient loop reads the potential at index [t], the number
    of the time step, for every row.  So a run of [n <= N] steps reads
    inside the list and ends with [n + 1] snapshots, and a run of [n > N]
    steps completes the steps [0 .. N-1] and stops with an index error at
    step [t = N], whatever the amplitudes are. *)
Theorem potential_read_at_time_index (psi0 : list C) :
  constants_defined -> (1 <= N)%nat -> length psi0 = N ->
  (forall V_n_J t,
     tridiagonal V_n_J t
     = match getitem V_n_J t with
       | Ok v => Ok (map a_entry (seq 0 N), map (b_entry v) (seq 0 N),
                     map c_entry (seq 0 N))
       | Raise _ => Raise IndexError
       end)
  /\ ((n <= N)%nat ->
      exists hist, time_loop [psi0] = Ok hist /\ length hist = S n)
  /\ ((N < n)%nat ->
      time_loop [psi0] = Raise IndexError /\
      exists hist,
        for_each (range 0 N) time_step [psi0] = Ok hist /\
        length hist = S N /\
        time_step N hist = Raise IndexError).
Proof.
  intros _ HN Hl. split; [| split].
  - intros V_n_J t. destruct (getitem V_n_J t) as [v | e] eqn:Hget.
    + apply tridiagonal_ok. assumption.
    + apply tridiagonal_index_error; [assumption |].
      unfold getitem in Hget.
      destruct (nth_error V_n_J t) eqn:Hnth; [discriminate |].
      apply nth_error_None. assumption.
  - intros Hn. exists (map (evolve psi0) (seq 0 (S n))). split.
    + apply time_loop_ok; assumption.
    + rewrite length_map, length_seq. reflexivity.
  - intros Hn. split; [apply time_loop_beyond_N; assumption |].
    exists (map (evolve psi0) (seq 0 (S N))). split; [| split].
    + rewrite range_0. apply time_loop_prefix; [assumption | lia].
    + rewrite length_map, length_seq. reflexivity.
    + apply (time_step_index_error N _ (evolve psi0 N)); try lia.
      * apply getitem_map_seq. lia.
      * apply evolve_length. assumption.
Qed.

(** ** The r_99 scan *)

Lemma skipn_cons_inv {A : Type} (l : list A) (i : nat) (x d : A)
  (l' : list A) :
  skipn i l = x :: l' ->
  (i < length l)%nat /\ nth i l d = x /\ skipn (S i) l = l'.
Proof.
  revert i. induction l as [| y l IH]; intros i H.
  - destruct i; discriminate.
  - destruct i as [| i].
    + simpl in H. inversion H. subst. simpl. repeat split. lia.
    + simpl in H. destruct (IH i H) as [Hi [Hn Hs]].
      simpl. repeat split; try assumption. lia.
Qed.

Lemma skipn_nil_inv {A : Type} (l : list A) (i : nat) :
  skipn i l = [] -> (length l <= i)%nat.
Proof.
  revert i. induction l as [| y l IH]; intros i H.
  - simpl. lia.
  - destruct i as [| i]; [discriminate |]. simpl in *.
    specialize (IH i H). lia.
Qed.

(** What a scan that starts at index [i] with the running sum of the
    passes before [i] returns. *)
Lemma scan_suffix (psi ks : list C) (i : nat) :
  skipn i psi = ks -> (i <= length psi)%nat ->
  match scan ks i (big_sum (r99_term psi) i) with
  | (Some r, J, s) =>
      (i <= J < length psi)%nat /\ r = INR J * dr /\ s = cumulative psi J /\
      0.99 < cumulative psi J /\
      forall j, (i <= j < J)%nat -> ~ 0.99 < cumulative psi j
  | (None, J, s) =>
      J = length psi /\ s = big_sum (r99_term psi) (length psi) /\
      forall j, (i <= j < length psi)%nat -> ~ 0.99 < cumulative psi j
  end.
Proof.
  intros Hs. revert i Hs. induction ks as [| k ks IH]; intros i Hs Hi.
  - apply skipn_nil_inv in Hs. assert (i = length psi) by lia. subst i.
    simpl. split; [reflexivity |]. split; [reflexivity |].
    intros j Hj. lia.
  - destruct (skipn_cons_inv psi i k C0 ks Hs) as [Hlt [Hnth Hs']].
    cbn [scan].
    assert (Hsum : big_sum (r99_term psi) i
                   + 4 * PI * (INR i * dr) ^ 2 * Cabs k ^ 2 * dr
                   = cumulative psi i).
    { rewrite <- Hnth. reflexivity. }
    rewrite Hsum.
    destruct (Rlt_dec 0.99 (cumulative psi i)) as [Hc | Hc].
    + split; [lia |]. split; [reflexivity |]. split; [reflexivity |].
      split; [assumption |]. intros j Hj. lia.
    + replace (i + 1)%nat with (S i) by lia.
      specialize (IH (S i) Hs' Hlt). unfold cumulative in IH at 1.
      change (big_sum (r99_term psi) (S i)) with (cumulative psi i) in IH.
      destruct (scan ks (S i) (cumulative psi i)) as [[[r |] J] s].
      * destruct IH as (HJ & Hr & Hsv & Hgt & Hmin).
        split; [lia |]. split; [assumption |]. split; [assumption |].
        split; [assumption |].
        intros j Hj. destruct (Nat.eq_dec j i) as [-> | Hne];
          [assumption | apply Hmin; lia].
      * destruct IH as (HJ & Hsv & Hmin).
        split; [assumption |]. split; [assumption |].
        intros j Hj. destruct (Nat.eq_dec j i) as [-> | Hne];
          [assumption | apply Hmin; lia].
Qed.

Lemma scan_found (psi : list C) (J : nat) :
  (J < length psi)%nat -> 0.99 < cumulative psi J ->
  (forall j, (j < J)%nat -> ~ 0.99 < cumulative psi j) ->
  scan psi 0 0 = (Some (INR J * dr), J, cumulative psi J).
Proof.
  intros HJ Hgt Hmin.
  pose proof (scan_suffix psi psi 0 eq_refl (Nat.le_0_l _)) as H.
  cbn [big_sum] in H.
  destruct (scan psi 0 0) as [[[r |] J'] s].
  - destruct H as (HJ' & Hr & Hs & Hgt' & Hmin').
    assert (J' = J).
    { destruct (Nat.lt_trichotomy J' J) as [Hlt | [Heq | Hlt]].
      - exfalso. apply (Hmin J' Hlt). assumption.
      - assumption.
      - exfalso. apply (Hmin' J); [lia | assumption]. }
    subst. reflexivity.
  - destruct H as (_ & _ & Hno). exfalso. apply (Hno J); [lia | assumption].
Qed.

Lemma scan_not_found (psi : list C) :
  (forall j, (j < length psi)%nat -> ~ 0.99 < cumulative psi j) ->
  scan psi 0 0 = (None, length psi, big_sum (r99_term psi) (length psi)).
Proof.
  intros Hno.
  pose proof (scan_suffix psi psi 0 eq_refl (Nat.le_0_l _)) as H.
  cbn [big_sum] in H.
  destruct (scan psi 0 0) as [[[r |] J'] s].
  - destruct H as (HJ' & _ & _ & Hgt' & _).
    exfalso. apply (Hno J'); [lia | assumption].
  - destruct H as (HJ & Hs & _). subst. reflexivity.
Qed.

Lemma firstn_succ {A : Type} (l : list A) (k : nat) (d : A) :
  (k < length l)%nat -> firstn (S k) l = firstn k l ++ [nth k l d].
Proof.
  revert k. induction l as [| x l IH]; intros k Hk; simpl in Hk.
  - lia.
  - destruct k as [| k]; [reflexivity |].
    cbn [firstn nth app]. f_equal. apply IH. lia.
Qed.

Lemma r99_prefix (psi_n_J : list (list C)) (k : nat) (s0 : R) :
  (k <= length psi_n_J)%nat ->
  exists s,
    for_each (seq 0 k) (r99_body psi_n_J) ([], s0)
    = Ok (flat_map r99_entry (firstn k psi_n_J), s).
Proof.
  induction k as [| k IH]; intros Hk.
  - exists s0. reflexivity.
  - destruct IH as [s Hs]; [lia |].
    rewrite for_each_seq_S, Hs. cbn [bind]. unfold r99_body.
    rewrite (getitem_nth _ _ []) by lia. cbn [bind].
    rewrite (firstn_succ _ _ []) by lia.
    rewrite flat_map_app. cbn [flat_map]. rewrite app_nil_r.
    unfold r99_entry.
    destruct (scan (nth k psi_n_J []) 0 0) as [[[r |] J] s'].
    + exists s'. reflexivity.
    + exists s'. rewrite app_nil_r. reflexivity.
Qed.

(** C6, as the notebook has it.  For a history of [n + 1] snapshots the
    loop appends, for each snapshot in order, what [r99_entry] gives: when
    the running sum exceeds 0.99 at some index, the radius [J* * dr] of the
    smallest such index [J*] (the sum reached there stays in [s]); when it
    never does, nothing, so that snapshot has no entry in [r_99]. *)
Theorem r99_records_crossings_only (psi_n_J : list (list C)) :
  length psi_n_J = S n ->
  (exists s, r99_loop psi_n_J = Ok (flat_map r99_entry psi_n_J, s))
  /\ (forall psi J,
        (J < length psi)%nat -> 0.99 < cumulative psi J ->
        (forall j, (j < J)%nat -> ~ 0.99 < cumulative psi j) ->
        scan psi 0 0 = (Some (INR J * dr), J, cumulative psi J)
        /\ r99_entry psi = [INR J * dr])
  /\ (forall psi,
        (forall j, (j < length psi)%nat -> ~ 0.99 < cumulative psi j) ->
        scan psi 0 0
        = (None, length psi, big_sum (r99_term psi) (length psi))
        /\ r99_entry psi = []).
Proof.
  intros Hl. split; [| split].
  - destruct (r99_prefix psi_n_J (S n) 0) as [s Hs]; [lia |].
    exists s. unfold r99_loop. rewrite range_0.
    replace (n + 1)%nat with (S n) by lia. rewrite Hs.
    rewrite <- Hl, firstn_all. reflexivity.
  - intros psi J HJ Hgt Hmin.
    pose proof (scan_found psi J HJ Hgt Hmin) as H.
    split; [exact H |]. unfold r99_entry. rewrite H. reflexivity.
  - intros psi Hno. pose proof (scan_not_found psi Hno) as H.
    split; [exact H |]. unfold r99_entry. rewrite H. reflexivity.
Qed.

(** ** The initial condition *)

Lemma psi_0_pos (J : nat) : 0 < psi_0 J.
Proof.
  unfold psi_0, Rpower. apply Rmult_lt_0_compat; apply exp_pos.
Qed.

Lemma exp_le (x y : R) : x <= y -> exp x <= exp y.
Proof.
  intros [Hlt | Heq].
  - left. apply exp_increasing. assumption.
  - right. rewrite Heq. reflexivity.
Qed.

Lemma psi_0_decreasing (J : nat) : a <> 0 -> psi_0 (S J) <= psi_0 J.
Proof.
  intros Ha. unfold psi_0.
  apply Rmult_le_compat_l; [left; unfold Rpower; apply exp_pos |].
  apply exp_le. rewrite S_INR.
  assert (HJ : 0 <= INR J) by apply pos_INR.
  assert (Ha2 : 0 < 2 * a ^ 2) by nra.
  unfold Rdiv. apply Rmult_le_compat_r.
  - left. apply Rinv_0_lt_compat. assumption.
  - nra.
Qed.

(** C10.  Every amplitude of the initial snapshot has imaginary part zero
    and a non-negative real part, and the amplitudes do not increase with
    the grid index. *)
Theorem initial_snapshot_nonneg_nonincreasing :
  a <> 0 ->
  exists psi,
    initial_condition = [psi] /\ length psi = N /\
    forall J, (J < N)%nat ->
      Im (nth J psi C0) = 0 /\ 0 <= Re (nth J psi C0) /\
      ((S J < N)%nat -> Re (nth (S J) psi C0) <= Re (nth J psi C0)).
Proof.
  intros Ha. unfold initial_condition. rewrite range_0.
  eexists. split; [reflexivity |]. split.
  - rewrite length_map, length_seq. reflexivity.
  - intros J HJ. rewrite nth_map_seq by assumption. simpl.
    split; [reflexivity |]. split.
    + left. apply psi_0_pos.
    + intros HS. rewrite nth_map_seq by assumption. simpl.
      apply psi_0_decreasing. assumption.
Qed.

(** ** Further properties of the cells *)

(** *** The constants *)

(** The frequency of cell 4 is [G M / a^3]: the factors [4 pi / 3] of the
    density and of the frequency cancel. *)
Theorem om_sq_closed_form : a <> 0 -> om_sq = G * M / a ^ 3.
Proof.
  intros Ha. unfold om_sq, rho. field. split; [assumption | apply PI_neq0].
Qed.

(** *** The potential *)

Lemma big_sum_ext (f g : nat -> R) (k : nat) :
  (forall i, (i < k)%nat -> f i = g i) -> big_sum f k = big_sum g k.
Proof.
  induction k as [| k IH]; intros Hfg; simpl.
  - reflexivity.
  - rewrite IH, Hfg by (intros; try apply Hfg; lia). reflexivity.
Qed.

Lemma big_sum_nonneg (f : nat -> R) (k : nat) :
  (forall i, (i < k)%nat -> 0 <= f i) -> 0 <= big_sum f k.
Proof.
  induction k as [| k IH]; intros Hf; simpl.
  - lra.
  - assert (0 <= big_sum f k) by (apply IH; intros; apply Hf; lia).
    assert (0 <= f k) by (apply Hf; lia). lra.
Qed.

Lemma Cabs_sq_eq (z : C) : Cabs z ^ 2 = fst z * fst z + snd z * snd z.
Proof.
  unfold Cabs. rewrite pow2_sqrt; [reflexivity | nra].
Qed.

Lemma Cabs_sq_nonneg (z : C) : 0 <= Cabs z ^ 2.
Proof. rewrite Cabs_sq_eq. nra. Qed.

Lemma potential_sums_short (psi_t : list C) :
  (length psi_t < N)%nat -> potential_sums psi_t = Raise IndexError.
Proof.
  intros Hl. unfold potential_sums. rewrite range_0.
  eapply (for_each_raise _ _ _ (length psi_t) N); [assumption | |].
  - apply sums_prefix. lia.
  - unfold sums_body. rewrite getitem_out by lia. reflexivity.
Qed.

Lemma potential_short (psi_t : list C) :
  (length psi_t < N)%nat -> potential psi_t = Raise IndexError.
Proof.
  intros Hl. unfold potential. rewrite range_0.
  apply (for_each_raise _ _ [] 0 N); [lia | reflexivity |].
  unfold potential_body. rewrite potential_sums_short by assumption.
  reflexivity.
Qed.

Lemma potential_inv (psi_t : list C) (V_n_J : list R) :
  potential psi_t = Ok V_n_J ->
  (N <= length psi_t)%nat /\ V_n_J = map (V_entry psi_t) (seq 0 N).
Proof.
  intros Hrun. destruct (le_lt_dec N (length psi_t)) as [Hle | Hlt].
  - rewrite potential_ok in Hrun by assumption. inversion Hrun.
    split; [assumption | reflexivity].
  - rewrite potential_short in Hrun by assumption. discriminate.
Qed.

(** The potential loop reads the first [N] amplitudes: it stops with an
    index error exactly when the snapshot has fewer, and otherwise returns
    [N] values, whatever comes after the first [N] amplitudes. *)
Theorem potential_needs_N_amplitudes (psi_t : list C) :
  (potential psi_t = Raise IndexError <-> (length psi_t < N)%nat)
  /\ ((N <= length psi_t)%nat ->
      exists V_n_J,
        potential psi_t = Ok V_n_J /\ length V_n_J = N /\
        forall J, (J < N)%nat -> nth J V_n_J 0 = V_entry psi_t J)
  /\ (forall V_n_J, potential psi_t = Ok V_n_J -> length V_n_J = N)
  /\ (forall more, (N <= length psi_t)%nat ->
        potential (firstn N psi_t ++ more) = potential psi_t).
Proof.
  split; [split | split; [| split]].
  - intros Hrun. destruct (le_lt_dec N (length psi_t)) as [Hle | Hlt];
      [| assumption].
    rewrite potential_ok in Hrun by assumption. discriminate.
  - apply potential_short.
  - intros Hle. exists (map (V_entry psi_t) (seq 0 N)).
    split; [apply potential_ok; assumption |].
    split; [rewrite length_map, length_seq; reflexivity |].
    intros J HJ. apply nth_map_seq. assumption.
  - intros V_n_J Hrun. apply potential_inv in Hrun. destruct Hrun as [_ ->].
    rewrite length_map, length_seq. reflexivity.
  - intros more Hle.
    assert (Hl : (N <= length (firstn N psi_t ++ more))%nat).
    { rewrite length_app, length_firstn. lia. }
    rewrite !potential_ok by assumption. f_equal.
    apply map_ext_in. intros J _. unfold V_entry, S1, S2.
    rewrite (big_sum_ext
               (fun i => INR i ^ 2 * dr ^ 3
                         * Cabs (nth i (firstn N psi_t ++ more) C0) ^ 2)
               (fun i => INR i ^ 2 * dr ^ 3 * Cabs (nth i psi_t C0) ^ 2)).
    + rewrite (big_sum_ext
               (fun i => INR i ^ 4 * dr ^ 5
                         * Cabs (nth i (firstn N psi_t ++ more) C0) ^ 2)
               (fun i => INR i ^ 4 * dr ^ 5 * Cabs (nth i psi_t C0) ^ 2)).
      * reflexivity.
      * intros i Hi. rewrite app_nth1 by (rewrite length_firstn; lia).
        rewrite nth_firstn. destruct (Nat.ltb_spec i N); [reflexivity | lia].
    + intros i Hi. rewrite app_nth1 by (rewrite length_firstn; lia).
      rewrite nth_firstn. destruct (Nat.ltb_spec i N); [reflexivity | lia].
Qed.

Lemma S1_nonneg (psi_t : list C) : 0 <= dr -> 0 <= S1 psi_t.
Proof.
  intros Hdr. unfold S1. apply big_sum_nonneg. intros i _.
  pose proof (Cabs_sq_nonneg (nth i psi_t C0)) as Hc.
  pose proof (pos_INR i) as Hi.
  apply Rmult_le_pos; [apply Rmult_le_pos |]; try assumption.
  - apply pow_le. assumption.
  - apply pow_le. assumption.
Qed.

Lemma S2_nonneg (psi_t : list C) : 0 <= dr -> 0 <= S2 psi_t.
Proof.
  intros Hdr. unfold S2. apply big_sum_nonneg. intros i _.
  pose proof (Cabs_sq_nonneg (nth i psi_t C0)) as Hc.
  pose proof (pos_INR i) as Hi.
  apply Rmult_le_pos; [apply Rmult_le_pos |]; try assumption.
  - apply pow_le. assumption.
  - apply pow_le. assumption.
Qed.

(** For [dr >= 0] and [om_sq >= 0] the potential starts at [- S2 <= 0] and
    does not decrease with the grid index: from [J] to [J + 1] it grows by
    [2 pi om_sq dr^2 (2 J + 1) S1]. *)
Theorem potential_nondecreasing (psi_t : list C) (V_n_J : list R) :
  0 <= dr -> 0 <= om_sq -> potential psi_t = Ok V_n_J ->
  (forall J, (S J < N)%nat ->
     nth (S J) V_n_J 0
     = nth J V_n_J 0 + 2 * PI * om_sq * dr ^ 2 * (2 * INR J + 1) * S1 psi_t
     /\ nth J V_n_J 0 <= nth (S J) V_n_J 0)
  /\ ((1 <= N)%nat -> nth 0 V_n_J 0 = - S2 psi_t /\ nth 0 V_n_J 0 <= 0).
Proof.
  intros Hdr Hom Hrun. apply potential_inv in Hrun. destruct Hrun as [_ ->].
  pose proof (S1_nonneg psi_t Hdr) as H1.
  pose proof (S2_nonneg psi_t Hdr) as H2.
  pose proof PI_RGT_0 as Hpi.
  split.
  - intros J HJ. rewrite !nth_map_seq by lia. unfold V_entry.
    rewrite S_INR. pose proof (pos_INR J) as HJ0.
    assert (Hstep : 0 <= 2 * PI * om_sq * dr ^ 2 * (2 * INR J + 1)
                         * S1 psi_t).
    { assert (Hd2 : 0 <= dr ^ 2) by (apply pow_le; assumption).
      apply Rmult_le_pos; [| assumption].
      apply Rmult_le_pos; [| lra].
      apply Rmult_le_pos; [| assumption].
      apply Rmult_le_pos; [lra | assumption]. }
    split; [ring | lra].
  - intros HN. rewrite nth_map_seq by lia. unfold V_entry. simpl.
    split; [ring | lra].
Qed.

(** The potential depends on the snapshot through the moduli of its
    amplitudes only: a change of phase or of sign of any amplitude leaves
    the whole vector, and the outcome of the loop, unchanged. *)
Theorem potential_modulus_only (psi psi' : list C) :
  length psi = length psi' ->
  (forall i, Cabs (nth i psi C0) = Cabs (nth i psi' C0)) ->
  potential psi = potential psi'.
Proof.
  intros Hl Habs. destruct (le_lt_dec N (length psi)) as [Hle | Hlt].
  - rewrite !potential_ok by lia. f_equal.
    apply map_ext_in. intros J _. unfold V_entry, S1, S2.
    rewrite (big_sum_ext
               (fun i => INR i ^ 2 * dr ^ 3 * Cabs (nth i psi C0) ^ 2)
               (fun i => INR i ^ 2 * dr ^ 3 * Cabs (nth i psi' C0) ^ 2))
      by (intros i _; rewrite Habs; reflexivity).
    rewrite (big_sum_ext
               (fun i => INR i ^ 4 * dr ^ 5 * Cabs (nth i psi C0) ^ 2)
               (fun i => INR i ^ 4 * dr ^ 5 * Cabs (nth i psi' C0) ^ 2))
      by (intros i _; rewrite Habs; reflexivity).
    reflexivity.
  - rewrite !potential_short by lia. reflexivity.
Qed.

(** *** The coefficients *)

Lemma tridiagonal_inv (V_n_J : list R) (t : nat) (A_J B_J C_J : list C) :
  (1 <= N)%nat -> tridiagonal V_n_J t = Ok (A_J, B_J, C_J) ->
  exists v,
    getitem V_n_J t = Ok v /\
    A_J = map a_entry (seq 0 N) /\ B_J = map (b_entry v) (seq 0 N) /\
    C_J = map c_entry (seq 0 N).
Proof.
  intros HN Hrun. destruct (getitem V_n_J t) as [v | e] eqn:Hget.
  - exists v. rewrite (tridiagonal_ok V_n_J t v Hget) in Hrun.
    inversion Hrun. repeat split.
  - rewrite tridiagonal_index_error in Hrun; [discriminate | assumption |].
    unfold getitem in Hget.
    destruct (nth_error V_n_J t) eqn:Hnth; [discriminate |].
    apply nth_error_None. assumption.
Qed.

(** On a grid of at least two points the three lists the coefficient loop
    returns have [N] entries and keep the conventions [a_0 = 0] and
    [c_(N-1) = 0].  The entry [a_1] is zero as well, from its factor
    [(J - 1) / J]: row 1 of the matrix is not coupled to row 0. *)
Theorem tridiagonal_conventions (V_n_J : list R) (t : nat)
  (A_J B_J C_J : list C) :
  (2 <= N)%nat -> tridiagonal V_n_J t = Ok (A_J, B_J, C_J) ->
  length A_J = N /\ length B_J = N /\ length C_J = N /\
  nth 0 A_J C0 = C0 /\ nth 1 A_J C0 = C0 /\ nth (N - 1) C_J C0 = C0.
Proof.
  intros HN Hrun.
  destruct (tridiagonal_inv V_n_J t A_J B_J C_J) as (v & _ & -> & -> & ->);
    [lia | assumption |].
  rewrite !length_map, !length_seq, !nth_map_seq by lia.
  repeat split.
  - unfold a_entry.
    change (1 =? 0)%nat with false. cbv iota.
    destruct (Nat.eqb_spec 1 (N - 1)) as [E | E].
    + replace (N - 2)%nat with 0%nat by lia.
      rewrite RtoC_div by (apply not_0_INR; lia).
      replace (INR 0 / INR (N - 1)) with 0 by (simpl; unfold Rdiv; ring).
      unfold K. generalize (h / (8 * M)). intros k.
      apply C_eq; simpl; ring.
    + unfold K. generalize (h / (8 * M)). intros k.
      apply C_eq; simpl; field.
  - unfold c_entry.
    destruct (Nat.eqb_spec (N - 1) 0) as [E | E]; [lia |].
    rewrite Nat.eqb_refl. reflexivity.
Qed.

Lemma mod_diag_Re_ge (A_J B_J C_J : list C) :
  (forall i, (i < N)%nat -> 0 < Re (nth i B_J C0)) ->
  (forall j, (S j < N)%nat ->
     exists r, 0 <= r /\ (nth (S j) A_J C0 * nth j C_J C0)%C = (- r, 0)) ->
  forall i, (i < N)%nat ->
    Re (nth i B_J C0) <= Re (mod_diag A_J B_J C_J i).
Proof.
  intros Hb Hac i Hi. destruct i as [| j].
  - simpl. lra.
  - pose proof (mod_diag_Re_pos A_J B_J C_J Hb Hac j ltac:(lia)) as Hj.
    cbn [mod_diag]. destruct (Hac j Hi) as [r [Hr Eac]]. rewrite Eac.
    destruct (mod_diag A_J B_J C_J j) as [x y].
    destruct (nth (S j) B_J C0) as [u w].
    unfold Re in *. simpl in *.
    assert (Hn : 0 < x * x + y * y) by nra.
    assert (Hq : 0 <= r * x / (x * x + y * y)).
    { apply Rmult_le_pos; [nra | left; apply Rinv_0_lt_compat; exact Hn]. }
    assert (E : u + - (- r * (x / (x * x + y * y))
                       - 0 * (- y / (x * x + y * y)))
                = u + r * x / (x * x + y * y)) by (field; lra).
    rewrite E. lra.
Qed.

Lemma Cabs_ge_Re (z : C) : Re z <= Cabs z.
Proof.
  destruct z as [x y]. unfold Re, Cabs. cbn [fst snd].
  destruct (Rle_lt_dec x 0) as [Hx | Hx].
  - pose proof (sqrt_pos (x * x + y * y)). lra.
  - rewrite <- (sqrt_square x) at 1 by lra.
    apply sqrt_le_1_alt. nra.
Qed.

Lemma built_diag_at_least_half (v : R) (i : nat) :
  (i < N)%nat ->
  0.5 <= Re (mod_diag (map a_entry (seq 0 N)) (map (b_entry v) (seq 0 N))
                      (map c_entry (seq 0 N)) i)
  /\ 0.5 <= Cabs (mod_diag (map a_entry (seq 0 N))
                           (map (b_entry v) (seq 0 N))
                           (map c_entry (seq 0 N)) i).
Proof.
  intros Hi.
  assert (Hre : 0.5 <= Re (mod_diag (map a_entry (seq 0 N))
                             (map (b_entry v) (seq 0 N))
                             (map c_entry (seq 0 N)) i)).
  { rewrite <- (b_entry_Re v i) at 1.
    rewrite <- (nth_map_seq (b_entry v) N i C0) at 1 by assumption.
    apply mod_diag_Re_ge; try assumption.
    - intros j Hj. rewrite nth_map_seq by assumption.
      rewrite b_entry_Re. lra.
    - intros j Hj. rewrite !nth_map_seq by lia.
      destruct (a_entry_imag (S j)) as [ra [Hra Ea]]; [lia |].
      destruct (c_entry_imag j Hj) as [rc [Hrc Ec]].
      rewrite Ea, Ec.
      exists ((h / (8 * M) * R_) * (h / (8 * M) * R_) * (ra * rc)). split.
      + apply Rmult_le_pos; [nra | apply Rmult_le_pos; assumption].
      + apply C_eq; simpl; ring. }
  split; [assumption |].
  eapply Rle_trans; [exact Hre | apply Cabs_ge_Re].
Qed.

(** Every entry the forward sweep puts in [B] for a system the coefficient
    loop has built has real part at least [0.5], hence modulus at least
    [0.5], whatever the potential and the right-hand side are: in a time
    step the Thomas algorithm never divides by a small number. *)
Theorem built_pivots_at_least_half (V_n_J : list R) (t : nat)
  (A_J B_J C_J d B D : list C) :
  (N <= length d)%nat ->
  tridiagonal V_n_J t = Ok (A_J, B_J, C_J) ->
  forward_sweep A_J B_J C_J d = Ok (B, D) ->
  length B = N /\
  forall i, (i < N)%nat ->
    0.5 <= Re (nth i B C0) /\ 0.5 <= Cabs (nth i B C0).
Proof.
  intros Hd Hbuild Hsweep.
  destruct (Nat.eq_dec N 0) as [E0 | E0].
  - unfold forward_sweep in Hsweep. rewrite E0 in Hsweep.
    simpl in Hsweep. injection Hsweep as <- <-.
    split; [symmetry; assumption | intros i Hi; lia].
  - destruct (tridiagonal_inv V_n_J t A_J B_J C_J) as (v & _ & -> & -> & ->);
      [lia | assumption |].
    apply forward_sweep_inv in Hsweep;
      rewrite ?length_map, ?length_seq; try lia.
    destruct Hsweep as [-> _].
    split; [rewrite length_map, length_seq; reflexivity |].
    intros i Hi. rewrite nth_map_seq by assumption.
    apply built_diag_at_least_half. assumption.
Qed.

(** *** The time loop *)

Lemma array_sub_mismatch (x y : list C) :
  (2 <= length x)%nat -> (2 <= length y)%nat -> length x <> length y ->
  array_sub x y = Raise ValueError.
Proof.
  intros Hx Hy Hne. unfold array_sub.
  destruct (Nat.eqb_spec (length x) (length y)) as [E | _]; [contradiction |].
  destruct x as [| x0 [| x1 x]]; simpl in Hx; try lia.
  destruct y as [| y0 [| y1 y]]; simpl in Hy; try lia.
  reflexivity.
Qed.

Lemma getitem_app1 {A : Type} (l1 l2 : list A) (i : nat) :
  (i < length l1)%nat -> getitem (l1 ++ l2) i = getitem l1 i.
Proof.
  intros Hi. unfold getitem. rewrite nth_error_app1 by assumption.
  reflexivity.
Qed.

(** A step on a snapshot whose length is not [N] fails: with fewer than [N]
    amplitudes in the potential loop, with an index error; with more than
    [N] (on a grid of at least two points) only at the end of the step,
    when the subtraction of step 5 finds arrays of different shapes. *)
Theorem time_step_wrong_length (t : nat) (psi_n_J : list (list C))
  (psi_t : list C) :
  getitem psi_n_J t = Ok psi_t ->
  ((length psi_t < N)%nat -> time_step t psi_n_J = Raise IndexError)
  /\ ((2 <= N)%nat -> (t < N)%nat -> (N < length psi_t)%nat ->
      time_step t psi_n_J = Raise ValueError).
Proof.
  intros Hget. split.
  - intros Hl. unfold time_step. rewrite Hget. cbn [bind].
    rewrite potential_short by assumption. reflexivity.
  - intros HN Ht Hl. unfold time_step. rewrite Hget. cbn [bind].
    rewrite potential_ok by lia. cbn [bind].
    rewrite (tridiagonal_ok _ t (V_entry psi_t t))
      by (apply getitem_map_seq; assumption).
    cbn [bind]. rewrite thomas_ok.
    + cbn [bind]. rewrite array_sub_mismatch; [reflexivity | | |];
        rewrite ?solution_length; lia.
    + rewrite length_map, length_seq. lia.
    + rewrite length_map, length_seq. lia.
    + rewrite length_map, length_seq. lia.
    + lia.
    + intros i Hi. apply built_diag_nonzero. assumption.
Qed.

Lemma time_step_inv (t : nat) (psi_n_J hist : list (list C)) :
  time_step t psi_n_J = Ok hist -> exists psi', hist = psi_n_J ++ [psi'].
Proof.
  unfold time_step. intros Hrun.
  destruct (getitem psi_n_J t) as [psi_t |]; [| discriminate].
  cbn [bind] in Hrun.
  destruct (potential psi_t) as [V |]; [| discriminate].
  cbn [bind] in Hrun.
  destruct (tridiagonal V t) as [[[A B] Cc] |]; [| discriminate].
  cbn [bind] in Hrun.
  destruct (thomas A B Cc psi_t) as [X |]; [| discriminate].
  cbn [bind] in Hrun.
  destruct (array_sub X psi_t) as [psi' |]; [| discriminate].
  cbn [bind] in Hrun. inversion Hrun. exists psi'. reflexivity.
Qed.

Lemma time_steps_append (lo k : nat) (psi_n_J hist : list (list C)) :
  for_each (seq lo k) time_step psi_n_J = Ok hist ->
  exists new, hist = psi_n_J ++ new /\ length new = k.
Proof.
  revert lo psi_n_J. induction k as [| k IH]; intros lo psi_n_J Hrun.
  - simpl in Hrun. inversion Hrun. exists []. rewrite app_nil_r.
    split; reflexivity.
  - cbn [seq for_each] in Hrun.
    destruct (time_step lo psi_n_J) as [h1 |] eqn:Hstep; [| discriminate].
    cbn [bind] in Hrun.
    destruct (time_step_inv lo psi_n_J h1 Hstep) as [psi' ->].
    destruct (IH (S lo) _ Hrun) as [new [-> Hlen]].
    exists (psi' :: new). rewrite <- app_assoc. simpl.
    split; [reflexivity | lia].
Qed.

(** The history only grows, and only at its end: a run that returns has
    appended exactly [n] snapshots to the list it started from and has left
    every snapshot that was there as it was.  This holds for any starting
    list. *)
Theorem time_loop_appends (psi_n_J hist : list (list C)) :
  time_loop psi_n_J = Ok hist ->
  exists new,
    hist = psi_n_J ++ new /\ length new = n /\
    forall t, (t < length psi_n_J)%nat -> nth t hist [] = nth t psi_n_J [].
Proof.
  unfold time_loop, range. rewrite Nat.sub_0_r. intros Hrun.
  destruct (time_steps_append 0 n psi_n_J hist Hrun) as [new [-> Hlen]].
  exists new. split; [reflexivity |]. split; [assumption |].
  intros t Ht. apply app_nth1. assumption.
Qed.

Lemma r99_entry_length (psi : list C) : (length (r99_entry psi) <= 1)%nat.
Proof.
  unfold r99_entry. destruct (scan psi 0 0) as [[[r |] J] s]; simpl; lia.
Qed.

Lemma r99_entries_length (l : list (list C)) :
  (length (flat_map r99_entry l) <= length l)%nat.
Proof.
  induction l as [| psi l IH]; simpl.
  - lia.
  - rewrite length_app. pose proof (r99_entry_length psi). lia.
Qed.

(** For [n <= N] steps from a snapshot of [N] amplitudes the cells run
    through: the history is an [(n + 1)] by [N] array, as cell 10 displays,
    that starts with the initial snapshot, and the loop of cell 11 returns
    on it with at most [n + 1] radii. *)
Theorem history_rectangular (psi0 : list C) :
  length psi0 = N -> (n <= N)%nat ->
  exists hist,
    time_loop [psi0] = Ok hist /\ length hist = S n /\
    nth 0 hist [] = psi0 /\
    (forall psi, In psi hist -> length psi = N) /\
    exists r_99 s,
      r99_loop hist = Ok (r_99, s) /\ (length r_99 <= S n)%nat.
Proof.
  intros Hl Hn. exists (map (evolve psi0) (seq 0 (S n))).
  assert (Hlen : length (map (evolve psi0) (seq 0 (S n))) = S n)
    by (rewrite length_map, length_seq; reflexivity).
  split; [apply time_loop_ok; assumption |].
  split; [assumption |]. split; [reflexivity |]. split.
  - intros psi Hin. apply in_map_iff in Hin. destruct Hin as [t [<- _]].
    apply evolve_length. assumption.
  - destruct (r99_prefix (map (evolve psi0) (seq 0 (S n))) (S n) 0)
      as [s Hs]; [lia |].
    exists (flat_map r99_entry (map (evolve psi0) (seq 0 (S n)))), s. split.
    + unfold r99_loop. rewrite range_0.
      replace (n + 1)%nat with (S n) by lia. rewrite Hs.
      rewrite <- Hlen at 1. rewrite firstn_all. reflexivity.
    + rewrite <- Hlen at 2. apply r99_entries_length.
Qed.

Lemma rerun_prefix (psi0 : list C) (k : nat) :
  length psi0 = N -> (n <= N)%nat -> (k <= n)%nat ->
  for_each (seq 0 k) time_step (map (evolve psi0) (seq 0 (S n)))
  = Ok (map (evolve psi0) (seq 0 (S n)) ++ map (evolve psi0) (seq 1 k)).
Proof.
  intros Hl Hn. induction k as [| k IH]; intros Hk.
  - simpl. rewrite app_nil_r. reflexivity.
  - rewrite for_each_seq_S, IH by lia. cbn [bind].
    destruct (time_step_ok k
                (map (evolve psi0) (seq 0 (S n))
                 ++ map (evolve psi0) (seq 1 k))
                (evolve psi0 k))
      as (V & A & B & Cc & X & _ & _ & _ & _ & Hstep).
    + lia.
    + rewrite getitem_app1 by (rewrite length_map, length_seq; lia).
      apply getitem_map_seq. lia.
    + apply evolve_length. assumption.
    + rewrite Hstep. rewrite (seq_S k 1), map_app, <- app_assoc.
      reflexivity.
Qed.

(** Running the time loop again on the history it returned (cell 9 run a
    second time without cell 8) does not carry the evolution further: step
    [t] starts again from the snapshot at index [t], so the snapshots
    [1 .. n] are appended a second time. *)
Theorem time_loop_rerun (psi0 : list C) (hist : list (list C)) :
  length psi0 = N -> (n <= N)%nat ->
  time_loop [psi0] = Ok hist ->
  time_loop hist = Ok (hist ++ tl hist).
Proof.
  intros Hl Hn Hrun. rewrite time_loop_ok in Hrun by assumption.
  injection Hrun as <-. unfold time_loop. rewrite range_0.
  change (psi0 :: map (evolve psi0) (seq 1 n))
    with (map (evolve psi0) (seq 0 (S n))).
  rewrite (rerun_prefix psi0 n) by (try assumption; lia). reflexivity.
Qed.

Lemma Cmult_0_r (z : C) : (z * C0)%C = C0.
Proof. apply C_eq; simpl; ring. Qed.

Lemma Cdiv_0_l (w : C) : (C0 / w)%C = C0.
Proof. apply C_eq; simpl; unfold Rdiv; ring. Qed.

Lemma Cminus_0_0 : (C0 - C0)%C = C0.
Proof. apply C_eq; simpl; ring. Qed.

Lemma mod_rhs_zero (A_J B_J C_J d : list C) (i : nat) :
  (forall k, nth k d C0 = C0) -> mod_rhs A_J B_J C_J d i = C0.
Proof.
  intros Hd. induction i as [| j IH]; cbn [mod_rhs].
  - apply Hd.
  - rewrite Hd, IH, Cmult_0_r, Cdiv_0_l. apply Cminus_0_0.
Qed.

Lemma back_zero (C_J B D : list C) (i : nat) :
  (forall k, nth k D C0 = C0) -> back C_J B D i = C0.
Proof.
  intros HD. induction i as [| j IH]; cbn [back].
  - rewrite HD. apply Cdiv_0_l.
  - rewrite HD, IH, Cmult_0_r, Cminus_0_0. apply Cdiv_0_l.
Qed.

Lemma zip_with_zero (k : nat) :
  zip_with Cminus (repeat C0 k) (repeat C0 k) = repeat C0 k.
Proof.
  induction k as [| k IH]; simpl.
  - reflexivity.
  - rewrite IH. f_equal. apply Cminus_0_0.
Qed.

(** A wave function that vanishes on the whole grid stays zero: the step
    appends the zero snapshot again. *)
Theorem zero_snapshot_stays_zero (t : nat) (psi_n_J : list (list C)) :
  (t < N)%nat -> getitem psi_n_J t = Ok (repeat C0 N) ->
  time_step t psi_n_J = Ok (psi_n_J ++ [repeat C0 N]).
Proof.
  intros Ht Hget.
  destruct (time_step_ok t psi_n_J (repeat C0 N))
    as (V & A & B & Cc & X & _ & _ & _ & _ & Hstep);
    [assumption | assumption | apply repeat_length |].
  rewrite Hstep. do 3 f_equal. unfold next_snapshot.
  match goal with
  | |- zip_with Cminus ?sol _ = _ =>
      assert (Hsol : sol = repeat C0 N)
  end.
  { apply (nth_ext _ _ C0 C0).
    - rewrite solution_length, repeat_length. reflexivity.
    - intros i Hi. rewrite solution_length in Hi.
      rewrite solution_nth by assumption. rewrite nth_repeat.
      apply back_zero. intros k.
      destruct (Nat.lt_ge_cases k N) as [Hk | Hk].
      + rewrite nth_map_seq by assumption.
        apply mod_rhs_zero. intros m. apply nth_repeat.
      + apply nth_overflow. rewrite length_map, length_seq. assumption. }
  rewrite Hsol. apply zip_with_zero.
Qed.

(** *** The Thomas algorithm *)

(** Forward elimination applied to any list that satisfies the rows. *)
Lemma eliminated_rows (A_J B_J C_J d Y : list C) :
  (forall i, (i < N)%nat -> mod_diag A_J B_J C_J i <> C0) ->
  (forall i, (i < N)%nat -> row A_J B_J C_J Y i = nth i d C0) ->
  forall i, (i < N)%nat ->
    (mod_diag A_J B_J C_J i * nth i Y C0
     + (if (i =? N - 1)%nat then C0 else nth i C_J C0 * nth (i + 1) Y C0))%C
    = mod_rhs A_J B_J C_J d i.
Proof.
  intros Hnz Hrow i. induction i as [| j IH]; intros Hi.
  - specialize (Hrow 0%nat Hi). unfold row in Hrow.
    change (0 =? 0)%nat with true in Hrow. cbv iota in Hrow.
    cbn [mod_diag mod_rhs]. rewrite <- Hrow. ring.
  - specialize (IH ltac:(lia)).
    destruct (Nat.eqb_spec j (N - 1)) as [E | _]; [lia |].
    replace (j + 1)%nat with (S j) in IH by lia.
    specialize (Hrow (S j) Hi). unfold row in Hrow.
    change (S j =? 0)%nat with false in Hrow. cbv iota in Hrow.
    replace (S j - 1)%nat with j in Hrow by lia.
    assert (HBj : mod_diag A_J B_J C_J j <> C0) by (apply Hnz; lia).
    cbn [mod_diag mod_rhs]. rewrite <- Hrow, <- IH.
    field. exact HBj.
Qed.

(** Back substitution then gives the entries the backward sweep appends. *)
Lemma substituted_rows (A_J B_J C_J d Y : list C) :
  (forall i, (i < N)%nat -> mod_diag A_J B_J C_J i <> C0) ->
  (forall i, (i < N)%nat -> row A_J B_J C_J Y i = nth i d C0) ->
  forall k, (k < N)%nat ->
    nth (N - 1 - k) Y C0
    = back C_J (map (mod_diag A_J B_J C_J) (seq 0 N))
               (map (mod_rhs A_J B_J C_J d) (seq 0 N)) k.
Proof.
  intros Hnz Hrow k. induction k as [| k IH]; intros Hk.
  - replace (N - 1 - 0)%nat with (N - 1)%nat by lia.
    pose proof (eliminated_rows A_J B_J C_J d Y Hnz Hrow (N - 1)
                  ltac:(lia)) as He.
    rewrite Nat.eqb_refl in He.
    cbn [back]. rewrite !nth_map_seq by lia. rewrite <- He.
    field. apply Hnz. lia.
  - specialize (IH ltac:(lia)).
    pose proof (eliminated_rows A_J B_J C_J d Y Hnz Hrow (N - 1 - S k)
                  ltac:(lia)) as He.
    destruct (Nat.eqb_spec (N - 1 - S k) (N - 1)) as [E | _]; [lia |].
    replace (N - 1 - S k + 1)%nat with (N - 1 - k)%nat in He by lia.
    cbn [back]. rewrite !nth_map_seq by lia. rewrite <- IH, <- He.
    field. apply Hnz. lia.
Qed.

(** The system has no other solution: with every modified diagonal entry
    non-zero, any list of [N] numbers that satisfies the [N] rows is the
    list the Thomas algorithm returns. *)
Theorem thomas_solution_unique (A_J B_J C_J d Y : list C) :
  length A_J = N -> length B_J = N -> length C_J = N -> length d = N ->
  length Y = N ->
  (forall i, (i < N)%nat -> mod_diag A_J B_J C_J i <> C0) ->
  (forall i, (i < N)%nat -> row A_J B_J C_J Y i = nth i d C0) ->
  thomas A_J B_J C_J d = Ok Y.
Proof.
  intros HA HB HC Hd HY Hnz Hrow.
  rewrite thomas_ok by (try lia; assumption). f_equal.
  apply (nth_ext _ _ C0 C0).
  - rewrite solution_length. symmetry. assumption.
  - intros i Hi. rewrite solution_length in Hi.
    rewrite solution_nth by assumption.
    rewrite <- (substituted_rows A_J B_J C_J d Y Hnz Hrow) by lia.
    f_equal. lia.
Qed.

Lemma solution_rows (A_J B_J C_J d : list C) :
  (forall i, (i < N)%nat -> mod_diag A_J B_J C_J i <> C0) ->
  forall i, (i < N)%nat ->
    row A_J B_J C_J (solution A_J B_J C_J d) i = nth i d C0.
Proof.
  intros Hnz i Hi. unfold row. destruct i as [| j].
  - pose proof (Hnz 0%nat Hi) as H0. cbn [mod_diag] in H0.
    destruct (Nat.eqb_spec 0 (N - 1)) as [E | E];
      change (0 =? 0)%nat with true; cbv iota.
    + pose proof (solution_last A_J B_J C_J d Hi) as HX.
      rewrite <- E in HX. cbn [mod_diag mod_rhs] in HX. rewrite HX.
      field. exact H0.
    + rewrite (solution_step A_J B_J C_J d 0) by lia.
      cbn [mod_diag mod_rhs]. replace (0 + 1)%nat with 1%nat by lia.
      field. exact H0.
  - change (S j =? 0)%nat with false. cbv iota.
    replace (S j - 1)%nat with j by lia.
    assert (HBj : mod_diag A_J B_J C_J j <> C0) by (apply Hnz; lia).
    pose proof (Hnz (S j) Hi) as HBi. cbn [mod_diag] in HBi.
    rewrite (solution_step A_J B_J C_J d j) by lia.
    destruct (Nat.eqb_spec (S j) (N - 1)) as [E | E]; cbv iota.
    + assert (HX : nth (S j) (solution A_J B_J C_J d) C0
                   = (mod_rhs A_J B_J C_J d (S j)
                      / mod_diag A_J B_J C_J (S j))%C).
      { rewrite E. apply solution_last. lia. }
      rewrite HX. cbn [mod_diag mod_rhs].
      apply last_row_algebra; assumption.
    + rewrite (solution_step A_J B_J C_J d (S j)) by lia.
      cbn [mod_diag mod_rhs]. replace (S j + 1)%nat with (S (S j)) by lia.
      apply inner_row_algebra; assumption.
Qed.

Lemma zip_plus_minus (x y : list C) :
  length x = length y ->
  zip_with Cplus (zip_with Cminus x y) y = x.
Proof.
  revert y. induction x as [| z x IH]; intros [| w y] Hl; simpl in *;
    try reflexivity; try discriminate.
  rewrite IH by lia. f_equal. ring.
Qed.

(** What one step computes: for a snapshot [psi] of length [N] and
    [t < N] the step succeeds, with no condition on the modified diagonal,
    and the appended snapshot [psi'] is such that [psi' + psi] satisfies
    every row of the matrix the coefficient loop builds, with [psi] as the
    right-hand side. *)
Theorem step_solves_built_system (t : nat) (psi_n_J : list (list C))
  (psi_t : list C) :
  (t < N)%nat -> getitem psi_n_J t = Ok psi_t -> length psi_t = N ->
  exists V_n_J A_J B_J C_J psi',
    potential psi_t = Ok V_n_J /\
    tridiagonal V_n_J t = Ok (A_J, B_J, C_J) /\
    time_step t psi_n_J = Ok (psi_n_J ++ [psi']) /\ length psi' = N /\
    forall i, (i < N)%nat ->
      row A_J B_J C_J (zip_with Cplus psi' psi_t) i = nth i psi_t C0.
Proof.
  intros Ht Hget Hl.
  destruct (time_step_ok t psi_n_J psi_t Ht Hget Hl)
    as (V & A & B & Cc & X & HV & HT & _ & _ & Hstep).
  exists V, A, B, Cc, (next_snapshot t psi_t).
  split; [assumption |]. split; [assumption |]. split; [assumption |].
  split; [apply next_snapshot_length; assumption |].
  rewrite potential_ok in HV by lia. injection HV as <-.
  rewrite (tridiagonal_ok _ t (V_entry psi_t t)) in HT
    by (apply getitem_map_seq; assumption).
  injection HT as <- <- <-.
  intros i Hi. unfold next_snapshot.
  rewrite zip_plus_minus by (rewrite solution_length; lia).
  apply solution_rows; [| assumption].
  intros j Hj. apply built_diag_nonzero. assumption.
Qed.

(** *** The r_99 scan *)

Lemma cumulative_0 (psi : list C) : cumulative psi 0 = 0.
Proof. unfold cumulative, r99_term. simpl. ring. Qed.

(** A recorded radius is [J * dr] for a grid index [J] of the snapshot
    with [J >= 1], and the sum left in [s] exceeds 0.99: the summand of
    index 0 is zero, so index 0 is never reported, and a snapshot of a
    single amplitude never gets an entry. *)
Theorem scan_reports_inner_index (psi : list C) (r : R) (J : nat) (s : R) :
  scan psi 0 0 = (Some r, J, s) ->
  (1 <= J < length psi)%nat /\ r = INR J * dr /\ s = cumulative psi J
  /\ 0.99 < s.
Proof.
  intros Hscan.
  pose proof (scan_suffix psi psi 0 eq_refl (Nat.le_0_l _)) as H.
  cbn [big_sum] in H. rewrite Hscan in H.
  destruct H as (HJ & Hr & Hs & Hgt & _).
  assert (J <> 0%nat).
  { intros ->. rewrite cumulative_0 in Hgt. lra. }
  subst s. repeat split; try assumption; lia.
Qed.

Lemma r99_term_nonneg (psi : list C) (i : nat) :
  0 <= dr -> 0 <= r99_term psi i.
Proof.
  intros Hdr. unfold r99_term. pose proof PI_RGT_0 as Hpi.
  pose proof (Cabs_sq_nonneg (nth i psi C0)) as Hc.
  assert (H2 : 0 <= (INR i * dr) ^ 2) by (apply pow2_ge_0).
  apply Rmult_le_pos; [| assumption].
  apply Rmult_le_pos; [| assumption].
  apply Rmult_le_pos; [lra | assumption].
Qed.

Lemma big_sum_mono (f : nat -> R) (j k : nat) :
  (forall i, 0 <= f i) -> (j <= k)%nat -> big_sum f j <= big_sum f k.
Proof.
  intros Hf Hjk. induction Hjk as [| k Hjk IH].
  - lra.
  - simpl. pose proof (Hf k). lra.
Qed.

(** For [dr >= 0] the running sum never decreases, so a snapshot gets an
    entry in [r_99] exactly when its sum over the whole grid exceeds
    0.99. *)
Theorem r99_entry_iff_total (psi : list C) :
  0 <= dr ->
  (r99_entry psi <> [] <-> 0.99 < big_sum (r99_term psi) (length psi)).
Proof.
  intros Hdr.
  pose proof (scan_suffix psi psi 0 eq_refl (Nat.le_0_l _)) as H.
  cbn [big_sum] in H. unfold r99_entry.
  destruct (scan psi 0 0) as [[[r |] J] s].
  - destruct H as (HJ & _ & _ & Hgt & _). split; [| discriminate].
    intros _. eapply Rlt_le_trans; [exact Hgt |].
    unfold cumulative. apply big_sum_mono; [| lia].
    intros i. apply r99_term_nonneg. assumption.
  - destruct H as (_ & _ & Hno). split; [intros Hne; contradiction |].
    intros Htot. exfalso.
    destruct (length psi) as [| m] eqn:El.
    + simpl in Htot. lra.
    + apply (Hno m); [lia | exact Htot].
Qed.

(** The loop of cell 11 reads the snapshots [0 .. n]: on a history with
    fewer than [n + 1] snapshots it stops with an index error. *)
Theorem r99_loop_short_history (psi_n_J : list (list C)) :
  (length psi_n_J <= n)%nat -> r99_loop psi_n_J = Raise IndexError.
Proof.
  intros Hl. unfold r99_loop. rewrite range_0.
  destruct (r99_prefix psi_n_J (length psi_n_J) 0) as [s Hs]; [lia |].
  apply (for_each_raise _ _ _ (length psi_n_J) (n + 1) IndexError
           ltac:(lia) Hs).
  unfold r99_body. rewrite getitem_out by lia. reflexivity.
Qed.

(** The end of cell 11 takes [r_99[0]] as the radius of time step 0.  It
    is the radius of the first snapshot that has an entry, whichever time
    step that is, and when no snapshot has one the cell stops with an index
    error. *)
Theorem r99_cell_first_entry (psi_n_J : list (list C)) :
  length psi_n_J = S n ->
  ((forall psi, In psi psi_n_J -> r99_entry psi = []) ->
   r99_cell psi_n_J = Raise IndexError)
  /\ (forall skipped psi rest r,
        psi_n_J = skipped ++ psi :: rest ->
        (forall psi', In psi' skipped -> r99_entry psi' = []) ->
        r99_entry psi = [r] ->
        exists s,
          r99_cell psi_n_J
          = Ok (r :: flat_map r99_entry rest, s, r / 9.461e15)).
Proof.
  intros Hl.
  destruct (r99_prefix psi_n_J (S n) 0) as [s Hs]; [lia |].
  rewrite <- Hl in Hs at 2. rewrite firstn_all in Hs.
  assert (Hloop : r99_loop psi_n_J = Ok (flat_map r99_entry psi_n_J, s)).
  { unfold r99_loop. rewrite range_0.
    replace (n + 1)%nat with (S n) by lia. exact Hs. }
  assert (Hnone : forall l, (forall psi, In psi l -> r99_entry psi = []) ->
                            flat_map r99_entry l = []).
  { induction l as [| x l IH]; intros Hall; simpl.
    - reflexivity.
    - rewrite (Hall x) by (left; reflexivity). simpl.
      apply IH. intros psi Hin. apply Hall. right. assumption. }
  split.
  - intros Hall. unfold r99_cell. rewrite Hloop. cbn [bind].
    rewrite (Hnone psi_n_J Hall). reflexivity.
  - intros skipped psi rest r Hsplit Hskip Hentry. exists s.
    unfold r99_cell. rewrite Hloop. cbn [bind].
    rewrite Hsplit, flat_map_app, (Hnone skipped Hskip).
    cbn [flat_map app]. rewrite Hentry. reflexivity.
Qed.

(** *** The corners of the matrix *)

Lemma for_each_ext {St : Type} (l : list nat)
  (body body' : nat -> St -> result St) (s : St) :
  (forall i st, In i l -> body i st = body' i st) ->
  for_each l body s = for_each l body' s.
Proof.
  revert s. induction l as [| i l IH]; intros s Hext; simpl.
  - reflexivity.
  - rewrite (Hext i s) by (left; reflexivity).
    destruct (body' i s) as [s' | e]; simpl; [| reflexivity].
    apply IH. intros j st Hj. apply Hext. right. assumption.
Qed.

(** The sweeps never read the sub-diagonal entry of row 0 nor the
    super-diagonal entry of row [N - 1]: whatever stands there, the outcome
    is the same, result or exception. *)
Theorem thomas_ignores_corners (a0 a0' cN cN' : C)
  (A_J B_J C_J d : list C) :
  length C_J = (N - 1)%nat ->
  thomas (a0 :: A_J) B_J (C_J ++ [cN]) d
  = thomas (a0' :: A_J) B_J (C_J ++ [cN']) d.
Proof.
  intros HC. unfold thomas.
  assert (Hf : forward_sweep (a0 :: A_J) B_J (C_J ++ [cN]) d
               = forward_sweep (a0' :: A_J) B_J (C_J ++ [cN']) d).
  { unfold forward_sweep. apply for_each_ext. intros i [B D] Hi.
    rewrite range_0 in Hi. apply in_seq in Hi. unfold forward_body.
    destruct i as [| j]; [reflexivity |].
    change (S j =? 0)%nat with false. cbv iota.
    replace (S j - 1)%nat with j by lia.
    rewrite !(getitem_app_l C_J) by lia.
    reflexivity. }
  rewrite Hf.
  destruct (forward_sweep (a0' :: A_J) B_J (C_J ++ [cN']) d)
    as [[B D] | e]; [| reflexivity].
  cbn [bind].
  assert (Hb : backward_sweep (C_J ++ [cN]) B D
               = backward_sweep (C_J ++ [cN']) B D).
  { unfold backward_sweep. apply for_each_ext. intros i X Hi.
    rewrite range_0 in Hi. apply in_seq in Hi. unfold backward_body.
    destruct i as [| j]; [reflexivity |].
    change (S j =? 0)%nat with false. cbv iota.
    rewrite !(getitem_app_l C_J) by lia.
    reflexivity. }
  rewrite Hb. reflexivity.
Qed.

End Notebook.

(** ** Concrete runs *)

Example range_0_3 : range 0 3 = [0; 1; 2]%nat.
Proof. reflexivity. Qed.

Example getitem_inside : getitem [C0; C1] 1 = Ok C1.
Proof. reflexivity. Qed.

Example getitem_outside : getitem [C0; C1] 2 = Raise IndexError.
Proof. reflexivity. Qed.

Example array_sub_shapes : array_sub [C0; C1] [C0; C1; C0] = Raise ValueError.
Proof. reflexivity. Qed.

Example for_each_stops :
  for_each (range 0 3)
    (fun i s => if (i =? 1)%nat then Raise IndexError else Ok (i :: s)) []
  = Raise IndexError.
Proof. reflexivity. Qed.

Lemma Cabs_sq (z : C) : Cabs z ^ 2 = fst z * fst z + snd z * snd z.
Proof.
  unfold Cabs. rewrite pow2_sqrt; [reflexivity | nra].
Qed.

(** A small configuration: [G = h = a = M = dr = 1], [dt = 2]. *)
Lemma unit_constants_defined : constants_defined 1 1 1 1.
Proof. unfold constants_defined. repeat split; lra. Qed.

Lemma unit_om_sq : om_sq 1 1 1 = 1.
Proof.
  unfold om_sq, rho. field. apply PI_neq0.
Qed.

Lemma unit_P : P 1 2 = Ci.
Proof. unfold P. apply C_eq; simpl; field. Qed.

Lemma spike_S1 : S1 1 3 spike = 1.
Proof.
  unfold S1, spike. cbn [big_sum nth]. rewrite !Cabs_sq. simpl. ring.
Qed.

Lemma spike_S2 : S2 1 3 spike = 1.
Proof.
  unfold S2, spike. cbn [big_sum nth]. rewrite !Cabs_sq. simpl. ring.
Qed.

Lemma spike_V_entry (J : nat) :
  V_entry 1 1 1 1 3 spike J = 2 * PI * INR J ^ 2 - 1.
Proof.
  unfold V_entry. rewrite unit_om_sq, spike_S1, spike_S2. ring.
Qed.

Lemma spike_potential :
  potential 1 1 1 1 3 spike = Ok [- 1; 2 * PI - 1; 8 * PI - 1].
Proof.
  rewrite potential_ok by (simpl; lia).
  cbn [seq map]. rewrite !spike_V_entry. do 2 f_equal.
  - simpl. ring.
  - f_equal; [simpl; ring |]. f_equal. simpl. ring.
Qed.

(** C2, at [N = 3], [dr = 1], [om_sq = 1] and the snapshot [[0, 1, 0]],
    where [S1 = S2 = 1].  The cell gives
    [V_J = 2 pi om_sq (J dr)^2 S1 - S2]: the second sum is subtracted
    without the factor [2 pi om_sq], so no entry equals
    [2 pi om_sq ((J dr)^2 S1 - S2)]. *)
Theorem potential_second_sum_unscaled :
  potential 1 1 1 1 3 spike = Ok [- 1; 2 * PI - 1; 8 * PI - 1]
  /\ S1 1 3 spike = 1 /\ S2 1 3 spike = 1 /\ om_sq 1 1 1 = 1
  /\ - 1 <> 2 * PI * 1 * ((0 * 1) ^ 2 * 1 - 1)
  /\ 2 * PI - 1 <> 2 * PI * 1 * ((1 * 1) ^ 2 * 1 - 1)
  /\ 8 * PI - 1 <> 2 * PI * 1 * ((2 * 1) ^ 2 * 1 - 1).
Proof.
  pose proof PI_RGT_0 as Hpi.
  pose proof PI2_3_2 as Hpi2. unfold PI2 in Hpi2.
  split; [exact spike_potential |].
  split; [exact spike_S1 |]. split; [exact spike_S2 |].
  split; [exact unit_om_sq |].
  repeat split; lra.
Qed.

(** C1, at [N = 3], time step [t = 0] and the potential of the snapshot
    [[0, 1, 0]].  The rows [J = 1] and [J = 2] of the diagonal are built
    from [V_n_J[0]], the entry at the index of the time step, and differ
    from the entries that the potential at their own index would give. *)
Theorem tridiagonal_diagonal_reads_V_t :
  exists V_n_J A_J B_J C_J,
    potential 1 1 1 1 3 spike = Ok V_n_J
    /\ tridiagonal 1 1 1 2 3 V_n_J 0 = Ok (A_J, B_J, C_J)
    /\ nth 1 B_J C0
       = (0.5 * (1 + P 1 2 * nth 0 V_n_J 0 + 2 * K 1 1 * R_ 1 2))%C
    /\ nth 1 B_J C0
       <> (0.5 * (1 + P 1 2 * nth 1 V_n_J 0 + 2 * K 1 1 * R_ 1 2))%C
    /\ nth 2 B_J C0 = (0.5 * (1 + P 1 2 * nth 0 V_n_J 0))%C
    /\ nth 2 B_J C0 <> (0.5 * (1 + P 1 2 * nth 2 V_n_J 0))%C.
Proof.
  pose proof PI_RGT_0 as Hpi.
  eexists _, _, _, _. split; [exact spike_potential |]. split.
  - apply (tridiagonal_ok 1 1 1 2 3 _ 0 (- 1)). reflexivity.
  - rewrite unit_P. cbn [seq map nth b_entry Nat.eqb Nat.sub].
    rewrite unit_P.
    split; [reflexivity |]. split; [| split; [reflexivity |]].
    + intros E. apply (f_equal snd) in E. simpl in E. lra.
    + intros E. apply (f_equal snd) in E. simpl in E. lra.
Qed.

(** C3, at [N = 2] and [n = 3].  The run does not give four snapshots: it
    stops with an index error, at the third pass, when the coefficient loop
    reads [V_n_J[2]] in a list of two entries. *)
Theorem time_loop_three_steps_two_cells :
  time_loop 1 1 1 1 1 2 2 3 [[C1; C0]] = Raise IndexError.
Proof.
  apply time_loop_beyond_N; [lia | reflexivity | lia].
Qed.

Lemma fixture_diag_0 : mod_diag fixture_a fixture_b fixture_c 0 = RtoC 2.
Proof. reflexivity. Qed.

Lemma fixture_diag_1 :
  mod_diag fixture_a fixture_b fixture_c 1 = RtoC (3 / 2).
Proof.
  apply C_eq; simpl; field.
Qed.

Lemma fixture_diag_2 :
  mod_diag fixture_a fixture_b fixture_c 2 = RtoC (4 / 3).
Proof.
  change (mod_diag fixture_a fixture_b fixture_c 2)
    with (nth 2 fixture_b C0
          - nth 2 fixture_a C0 * nth 1 fixture_c C0
            / mod_diag fixture_a fixture_b fixture_c 1)%C.
  rewrite fixture_diag_1. apply C_eq; simpl; field.
Qed.

Lemma fixture_diag_nonzero (i : nat) :
  (i < 3)%nat -> mod_diag fixture_a fixture_b fixture_c i <> C0.
Proof.
  intros Hi.
  destruct i as [| [| [| i]]]; [| | | lia].
  - rewrite fixture_diag_0. apply RtoC_neq_0. lra.
  - rewrite fixture_diag_1. apply RtoC_neq_0. lra.
  - rewrite fixture_diag_2. apply RtoC_neq_0. lra.
Qed.

Lemma fixture_rhs_1 :
  mod_rhs fixture_a fixture_b fixture_c fixture_d 1 = RtoC (5 / 2).
Proof.
  apply C_eq; simpl; field.
Qed.

Lemma fixture_rhs_2 :
  mod_rhs fixture_a fixture_b fixture_c fixture_d 2 = RtoC (14 / 3).
Proof.
  change (mod_rhs fixture_a fixture_b fixture_c fixture_d 2)
    with (nth 2 fixture_d C0
          - nth 2 fixture_a C0
            * mod_rhs fixture_a fixture_b fixture_c fixture_d 1
            / mod_diag fixture_a fixture_b fixture_c 1)%C.
  rewrite fixture_rhs_1, fixture_diag_1. apply C_eq; simpl; field.
Qed.

(** The solution of the fixture is [[5/2, 4, 7/2]]. *)
Example thomas_fixture :
  thomas 3 fixture_a fixture_b fixture_c fixture_d
  = Ok [RtoC (5 / 2); RtoC 4; RtoC (7 / 2)].
Proof.
  rewrite thomas_ok; try (simpl; lia); [| exact fixture_diag_nonzero].
  f_equal. unfold solution.
  cbn [seq map rev app back Nat.sub nth].
  rewrite fixture_diag_2, fixture_rhs_2, fixture_diag_1, fixture_rhs_1.
  change (mod_diag fixture_a fixture_b fixture_c 0) with (RtoC 2).
  change (mod_rhs fixture_a fixture_b fixture_c fixture_d 0) with (RtoC 1).
  unfold fixture_c. cbn [nth].
  repeat f_equal; apply C_eq; simpl; field.
Qed.

Lemma thomas_solves_system_witness :
  (length fixture_a = 3%nat /\ length fixture_b = 3%nat /\
   length fixture_c = 3%nat /\ length fixture_d = 3%nat /\
   forall i, (i < 3)%nat -> mod_diag fixture_a fixture_b fixture_c i <> C0)
  /\ exists X,
       thomas 3 fixture_a fixture_b fixture_c fixture_d = Ok X /\
       length X = 3%nat /\
       forall i, (i < 3)%nat ->
         row 3 fixture_a fixture_b fixture_c X i = nth i fixture_d C0.
Proof.
  split.
  - repeat split; try reflexivity. exact fixture_diag_nonzero.
  - apply (thomas_solves_system 3 fixture_a fixture_b fixture_c fixture_d);
      try reflexivity.
    exact fixture_diag_nonzero.
Defined.

(** On a one-row system whose diagonal entry is zero the algorithm stops
    with the division error. *)
Lemma thomas_fails_iff_exact_zero_witness :
  (length [C0] = 1%nat /\ length [C0] = 1%nat /\ length [C0] = 1%nat /\
   length [C1] = 1%nat)
  /\ thomas 1 [C0] [C0] [C0] [C1] = Raise ZeroDivisionError.
Proof.
  split.
  - repeat split.
  - apply (thomas_fails_iff_exact_zero 1 [C0] [C0] [C0] [C1]);
      try reflexivity.
    exists 0%nat. split; [lia | reflexivity].
Defined.

(** C5 fails as stated: a modified diagonal entry of [1e-300], zero for
    every numerical purpose, raises nothing.  The algorithm divides by it
    and returns [1e300]. *)
Lemma thomas_divides_by_tiny_pivot :
  mod_diag [C0] [RtoC 1e-300] [C0] 0 = RtoC 1e-300
  /\ 0 < Cabs (RtoC 1e-300) <= 1e-300
  /\ thomas 1 [C0] [RtoC 1e-300] [C0] [C1] = Ok [(C1 / RtoC 1e-300)%C]
  /\ thomas 1 [C0] [RtoC 1e-300] [C0] [C1] <> Raise ZeroDivisionError.
Proof.
  assert (Hpos : 0 < 1e-300) by lra.
  assert (Hnz : forall i, (i < 1)%nat ->
                 mod_diag [C0] [RtoC 1e-300] [C0] i <> C0).
  { intros i Hi. replace i with 0%nat by lia.
    apply RtoC_neq_0. lra. }
  assert (Hrun : thomas 1 [C0] [RtoC 1e-300] [C0] [C1]
                 = Ok [(C1 / RtoC 1e-300)%C]).
  { rewrite thomas_ok; try (simpl; lia); [reflexivity | exact Hnz]. }
  split; [reflexivity |]. split; [| split; [exact Hrun |]].
  - unfold Cabs, RtoC. cbn [fst snd].
    replace (1e-300 * 1e-300 + 0 * 0) with (Rsqr 1e-300)
      by (unfold Rsqr; ring).
    rewrite sqrt_Rsqr by lra. lra.
  - rewrite Hrun. discriminate.
Qed.

(** C6 fails as stated: for a history of one snapshot whose amplitudes are
    zero the running sum never exceeds 0.99, and the loop leaves [r_99]
    empty instead of appending the outer radius [(N - 1) * dr]. *)
Lemma r99_no_entry_without_crossing :
  r99_loop 1 0 [[C0; C0]] = Ok ([], 0)
  /\ r99_entry 1 [C0; C0] = []
  /\ r99_entry 1 [C0; C0] <> [INR (2 - 1) * 1].
Proof.
  assert (Hcabs : Cabs C0 ^ 2 = 0) by (rewrite Cabs_sq; simpl; ring).
  assert (Hscan : scan 1 [C0; C0] 0 0 = (None, 2%nat, 0)).
  { cbn [scan]. rewrite Hcabs.
    destruct (Rlt_dec 0.99 (0 + 4 * PI * (INR 0 * 1) ^ 2 * 0 * 1))
      as [H | _]; [lra |].
    destruct (Rlt_dec 0.99
                (0 + 4 * PI * (INR 0 * 1) ^ 2 * 0 * 1
                 + 4 * PI * (INR (0 + 1) * 1) ^ 2 * 0 * 1))
      as [H | _]; [lra |].
    do 2 f_equal. ring. }
  assert (Hentry : r99_entry 1 [C0; C0] = [])
    by (unfold r99_entry; rewrite Hscan; reflexivity).
  split; [| split; [exact Hentry |]].
  - unfold r99_loop, range. cbn [Nat.add Nat.sub seq for_each].
    unfold r99_body. cbn [getitem nth_error bind]. rewrite Hscan.
    reflexivity.
  - rewrite Hentry. discriminate.
Qed.

Lemma r99_records_crossings_only_witness :
  length [[C0; C0]] = 1%nat
  /\ exists s, r99_loop 1 0 [[C0; C0]]
               = Ok (flat_map (r99_entry 1) [[C0; C0]], s).
Proof.
  split; [reflexivity |].
  apply (r99_records_crossings_only 1 0 [[C0; C0]]). reflexivity.
Defined.

Lemma potential_read_at_time_index_witness :
  (constants_defined 1 1 1 1 /\ (1 <= 2)%nat /\ length [C1; C0] = 2%nat)
  /\ time_loop 1 1 1 1 1 2 2 3 [[C1; C0]] = Raise IndexError
  /\ exists hist, time_loop 1 1 1 1 1 2 2 2 [[C1; C0]] = Ok hist
                  /\ length hist = 3%nat.
Proof.
  split; [split; [exact unit_constants_defined | split; [lia | reflexivity]] |].
  split.
  - apply (potential_read_at_time_index 1 1 1 1 1 2 2 3 [C1; C0]);
      [exact unit_constants_defined | lia | reflexivity | lia].
  - apply (potential_read_at_time_index 1 1 1 1 1 2 2 2 [C1; C0]);
      [exact unit_constants_defined | lia | reflexivity | lia].
Defined.

(** The notebook's values: [a = 20 * 3.0857e19], [dr = 1e20], [N = 300]. *)
Lemma initial_snapshot_nonneg_nonincreasing_witness :
  20 * 3.0857e19 <> 0
  /\ exists psi,
       initial_condition (20 * 3.0857e19) 1e20 300 = [psi] /\
       length psi = 300%nat /\
       forall J, (J < 300)%nat ->
         Im (nth J psi C0) = 0 /\ 0 <= Re (nth J psi C0) /\
         ((S J < 300)%nat -> Re (nth (S J) psi C0) <= Re (nth J psi C0)).
Proof.
  assert (Ha : 20 * 3.0857e19 <> 0) by lra.
  split; [exact Ha |].
  exact (initial_snapshot_nonneg_nonincreasing (20 * 3.0857e19) 1e20 300 Ha).
Defined.

(** ** Concrete runs of the further properties *)

(** With the notebook's values of [G], [a] and [M]. *)
Lemma om_sq_closed_form_witness :
  20 * 3.0857e19 <> 0
  /\ om_sq 6.67430e-11 (20 * 3.0857e19) (1.37e11 * 1.98847e30)
     = 6.67430e-11 * (1.37e11 * 1.98847e30) / (20 * 3.0857e19) ^ 3.
Proof.
  assert (Ha : 20 * 3.0857e19 <> 0) by lra.
  split; [exact Ha |].
  exact (om_sq_closed_form 6.67430e-11 (20 * 3.0857e19)
           (1.37e11 * 1.98847e30) Ha).
Defined.

Lemma potential_nondecreasing_witness :
  (0 <= 1 /\ 0 <= om_sq 1 1 1
   /\ potential 1 1 1 1 3 spike = Ok [- 1; 2 * PI - 1; 8 * PI - 1])
  /\ nth 1 [- 1; 2 * PI - 1; 8 * PI - 1] 0
     <= nth 2 [- 1; 2 * PI - 1; 8 * PI - 1] 0.
Proof.
  assert (H1 : 0 <= 1) by lra.
  assert (H2 : 0 <= om_sq 1 1 1) by (rewrite unit_om_sq; lra).
  split; [split; [exact H1 | split; [exact H2 | exact spike_potential]] |].
  apply (potential_nondecreasing 1 1 1 1 3 spike
           [- 1; 2 * PI - 1; 8 * PI - 1] H1 H2 spike_potential).
  lia.
Defined.

Lemma quarter_turn_moduli (i : nat) :
  Cabs (nth i [C1; C0] C0) = Cabs (nth i [Ci; C0] C0).
Proof.
  destruct i as [| [| i]].
  - unfold Cabs. simpl. f_equal. ring.
  - reflexivity.
  - simpl. destruct i; reflexivity.
Qed.

Lemma potential_modulus_only_witness :
  (length [C1; C0] = length [Ci; C0]
   /\ forall i, Cabs (nth i [C1; C0] C0) = Cabs (nth i [Ci; C0] C0))
  /\ potential 1 1 1 1 2 [C1; C0] = potential 1 1 1 1 2 [Ci; C0].
Proof.
  split; [split; [reflexivity | exact quarter_turn_moduli] |].
  exact (potential_modulus_only 1 1 1 1 2 [C1; C0] [Ci; C0] eq_refl
           quarter_turn_moduli).
Defined.

Lemma tridiagonal_conventions_witness :
  ((2 <= 3)%nat
   /\ tridiagonal 1 1 1 2 3 [- 1; 2 * PI - 1; 8 * PI - 1] 0
      = Ok (map (a_entry 1 1 1 2 3) (seq 0 3),
            map (b_entry 1 1 1 2 3 (- 1)) (seq 0 3),
            map (c_entry 1 1 1 2 3) (seq 0 3)))
  /\ nth 1 (map (a_entry 1 1 1 2 3) (seq 0 3)) C0 = C0.
Proof.
  assert (HN : (2 <= 3)%nat) by lia.
  assert (Hrun : tridiagonal 1 1 1 2 3 [- 1; 2 * PI - 1; 8 * PI - 1] 0
                 = Ok (map (a_entry 1 1 1 2 3) (seq 0 3),
                       map (b_entry 1 1 1 2 3 (- 1)) (seq 0 3),
                       map (c_entry 1 1 1 2 3) (seq 0 3)))
    by (apply tridiagonal_ok; reflexivity).
  split; [split; [exact HN | exact Hrun] |].
  apply (tridiagonal_conventions 1 1 1 2 3 _ 0 _ _ _ HN Hrun).
Defined.

Lemma built_pivots_at_least_half_witness :
  ((3 <= length spike)%nat
   /\ tridiagonal 1 1 1 2 3 [- 1; 2 * PI - 1; 8 * PI - 1] 0
      = Ok (map (a_entry 1 1 1 2 3) (seq 0 3),
            map (b_entry 1 1 1 2 3 (- 1)) (seq 0 3),
            map (c_entry 1 1 1 2 3) (seq 0 3))
   /\ forward_sweep 3 (map (a_entry 1 1 1 2 3) (seq 0 3))
        (map (b_entry 1 1 1 2 3 (- 1)) (seq 0 3))
        (map (c_entry 1 1 1 2 3) (seq 0 3)) spike
      = Ok (map (mod_diag (map (a_entry 1 1 1 2 3) (seq 0 3))
                   (map (b_entry 1 1 1 2 3 (- 1)) (seq 0 3))
                   (map (c_entry 1 1 1 2 3) (seq 0 3))) (seq 0 3),
            map (mod_rhs (map (a_entry 1 1 1 2 3) (seq 0 3))
                   (map (b_entry 1 1 1 2 3 (- 1)) (seq 0 3))
                   (map (c_entry 1 1 1 2 3) (seq 0 3)) spike) (seq 0 3)))
  /\ length (map (mod_diag (map (a_entry 1 1 1 2 3) (seq 0 3))
                   (map (b_entry 1 1 1 2 3 (- 1)) (seq 0 3))
                   (map (c_entry 1 1 1 2 3) (seq 0 3))) (seq 0 3)) = 3%nat.
Proof.
  assert (Hd : (3 <= length spike)%nat) by (simpl; lia).
  assert (Hbuild : tridiagonal 1 1 1 2 3 [- 1; 2 * PI - 1; 8 * PI - 1] 0
                   = Ok (map (a_entry 1 1 1 2 3) (seq 0 3),
                         map (b_entry 1 1 1 2 3 (- 1)) (seq 0 3),
                         map (c_entry 1 1 1 2 3) (seq 0 3)))
    by (apply tridiagonal_ok; reflexivity).
  assert (Hsweep : forward_sweep 3 (map (a_entry 1 1 1 2 3) (seq 0 3))
                     (map (b_entry 1 1 1 2 3 (- 1)) (seq 0 3))
                     (map (c_entry 1 1 1 2 3) (seq 0 3)) spike
                   = Ok (map (mod_diag (map (a_entry 1 1 1 2 3) (seq 0 3))
                                (map (b_entry 1 1 1 2 3 (- 1)) (seq 0 3))
                                (map (c_entry 1 1 1 2 3) (seq 0 3)))
                           (seq 0 3),
                         map (mod_rhs (map (a_entry 1 1 1 2 3) (seq 0 3))
                                (map (b_entry 1 1 1 2 3 (- 1)) (seq 0 3))
                                (map (c_entry 1 1 1 2 3) (seq 0 3)) spike)
                           (seq 0 3))).
  { apply forward_sweep_ok; try (simpl; lia).
    intros i Hi. apply built_diag_nonzero. lia. }
  split; [split; [exact Hd | split; [exact Hbuild | exact Hsweep]] |].
  apply (built_pivots_at_least_half 1 1 1 2 3 _ 0 _ _ _ spike _ _
           Hd Hbuild Hsweep).
Defined.

Lemma time_step_wrong_length_witness :
  getitem [[C1]] 0 = Ok [C1]
  /\ time_step 1 1 1 1 1 2 2 0 [[C1]] = Raise IndexError.
Proof.
  split; [reflexivity |].
  apply (time_step_wrong_length 1 1 1 1 1 2 2 0 [[C1]] [C1] eq_refl).
  simpl. lia.
Defined.

Lemma two_steps_run :
  time_loop 1 1 1 1 1 2 2 2 [[C1; C0]]
  = Ok (map (evolve 1 1 1 1 1 2 2 [C1; C0]) (seq 0 3)).
Proof. apply time_loop_ok; [reflexivity | lia]. Qed.

Lemma time_loop_appends_witness :
  time_loop 1 1 1 1 1 2 2 2 [[C1; C0]]
  = Ok (map (evolve 1 1 1 1 1 2 2 [C1; C0]) (seq 0 3))
  /\ exists new,
       map (evolve 1 1 1 1 1 2 2 [C1; C0]) (seq 0 3) = [[C1; C0]] ++ new
       /\ length new = 2%nat.
Proof.
  split; [exact two_steps_run |].
  destruct (time_loop_appends 1 1 1 1 1 2 2 2 [[C1; C0]] _ two_steps_run)
    as [new [Hnew [Hlen _]]].
  exists new. split; assumption.
Defined.

Lemma history_rectangular_witness :
  (length [C1; C0] = 2%nat /\ (2 <= 2)%nat)
  /\ exists hist,
       time_loop 1 1 1 1 1 2 2 2 [[C1; C0]] = Ok hist
       /\ length hist = 3%nat
       /\ forall psi, In psi hist -> length psi = 2%nat.
Proof.
  assert (Hn : (2 <= 2)%nat) by lia.
  split; [split; [reflexivity | exact Hn] |].
  destruct (history_rectangular 1 1 1 1 1 2 2 2 [C1; C0] eq_refl Hn)
    as [hist [Hrun [Hlen [_ [Hrect _]]]]].
  exists hist. repeat split; assumption.
Defined.

Lemma time_loop_rerun_witness :
  (length [C1; C0] = 2%nat /\ (2 <= 2)%nat
   /\ time_loop 1 1 1 1 1 2 2 2 [[C1; C0]]
      = Ok (map (evolve 1 1 1 1 1 2 2 [C1; C0]) (seq 0 3)))
  /\ time_loop 1 1 1 1 1 2 2 2
       (map (evolve 1 1 1 1 1 2 2 [C1; C0]) (seq 0 3))
     = Ok (map (evolve 1 1 1 1 1 2 2 [C1; C0]) (seq 0 3)
           ++ tl (map (evolve 1 1 1 1 1 2 2 [C1; C0]) (seq 0 3))).
Proof.
  assert (Hn : (2 <= 2)%nat) by lia.
  split; [split; [reflexivity | split; [exact Hn | exact two_steps_run]] |].
  exact (time_loop_rerun 1 1 1 1 1 2 2 2 [C1; C0] _ eq_refl Hn
           two_steps_run).
Defined.

Lemma zero_snapshot_stays_zero_witness :
  ((0 < 2)%nat /\ getitem [[C0; C0]] 0 = Ok (repeat C0 2))
  /\ time_step 1 1 1 1 1 2 2 0 [[C0; C0]]
     = Ok ([[C0; C0]] ++ [repeat C0 2]).
Proof.
  assert (Ht : (0 < 2)%nat) by lia.
  split; [split; [exact Ht | reflexivity] |].
  exact (zero_snapshot_stays_zero 1 1 1 1 1 2 2 0 [[C0; C0]] Ht eq_refl).
Defined.

Lemma fixture_rows (i : nat) :
  (i < 3)%nat ->
  row 3 fixture_a fixture_b fixture_c [RtoC (5 / 2); RtoC 4; RtoC (7 / 2)] i
  = nth i fixture_d C0.
Proof.
  intros Hi. destruct i as [| [| [| i]]]; [| | | lia];
    unfold row; simpl; apply C_eq; simpl; lra.
Qed.

Lemma thomas_solution_unique_witness :
  (length fixture_a = 3%nat /\ length fixture_b = 3%nat
   /\ length fixture_c = 3%nat /\ length fixture_d = 3%nat
   /\ length [RtoC (5 / 2); RtoC 4; RtoC (7 / 2)] = 3%nat
   /\ (forall i, (i < 3)%nat ->
         mod_diag fixture_a fixture_b fixture_c i <> C0)
   /\ forall i, (i < 3)%nat ->
        row 3 fixture_a fixture_b fixture_c
          [RtoC (5 / 2); RtoC 4; RtoC (7 / 2)] i
        = nth i fixture_d C0)
  /\ thomas 3 fixture_a fixture_b fixture_c fixture_d
     = Ok [RtoC (5 / 2); RtoC 4; RtoC (7 / 2)].
Proof.
  split.
  - repeat split; try reflexivity;
      [exact fixture_diag_nonzero | exact fixture_rows].
  - exact (thomas_solution_unique 3 fixture_a fixture_b fixture_c fixture_d
             [RtoC (5 / 2); RtoC 4; RtoC (7 / 2)]
             eq_refl eq_refl eq_refl eq_refl eq_refl
             fixture_diag_nonzero fixture_rows).
Defined.

Lemma step_solves_built_system_witness :
  ((0 < 2)%nat /\ getitem [[C1; C0]] 0 = Ok [C1; C0]
   /\ length [C1; C0] = 2%nat)
  /\ exists psi',
       time_step 1 1 1 1 1 2 2 0 [[C1; C0]] = Ok ([[C1; C0]] ++ [psi'])
       /\ length psi' = 2%nat.
Proof.
  assert (Ht : (0 < 2)%nat) by lia.
  split; [split; [exact Ht | split; reflexivity] |].
  destruct (step_solves_built_system 1 1 1 1 1 2 2 0 [[C1; C0]] [C1; C0]
              Ht eq_refl eq_refl)
    as (V & A & B & Cc & psi' & _ & _ & Hstep & Hlen & _).
  exists psi'. split; assumption.
Defined.

(** The scan of the snapshot [[0, 1]] with [dr = 1] stops at index 1, where
    the sum reaches [4 pi]. *)
Lemma scan_zero_one :
  scan 1 [C0; C1] 0 0
  = (Some (INR 1 * 1), 1%nat,
     0 + 4 * PI * (INR 0 * 1) ^ 2 * Cabs C0 ^ 2 * 1
     + 4 * PI * (INR (0 + 1) * 1) ^ 2 * Cabs C1 ^ 2 * 1).
Proof.
  pose proof PI2_3_2 as Hpi. unfold PI2 in Hpi.
  assert (H0 : Cabs C0 ^ 2 = 0) by (rewrite Cabs_sq; simpl; ring).
  assert (H1 : Cabs C1 ^ 2 = 1) by (rewrite Cabs_sq; simpl; ring).
  cbn [scan].
  destruct (Rlt_dec 0.99 (0 + 4 * PI * (INR 0 * 1) ^ 2 * Cabs C0 ^ 2 * 1))
    as [H | _]; [rewrite H0 in H; lra |].
  destruct (Rlt_dec 0.99
              (0 + 4 * PI * (INR 0 * 1) ^ 2 * Cabs C0 ^ 2 * 1
               + 4 * PI * (INR (0 + 1) * 1) ^ 2 * Cabs C1 ^ 2 * 1))
    as [_ | H]; [reflexivity |].
  exfalso. apply H. rewrite H0, H1. simpl. lra.
Qed.

Lemma scan_zero_zero : scan 1 [C0; C0] 0 0 = (None, 2%nat, 0).
Proof.
  assert (H0 : Cabs C0 ^ 2 = 0) by (rewrite Cabs_sq; simpl; ring).
  cbn [scan]. rewrite H0.
  destruct (Rlt_dec 0.99 (0 + 4 * PI * (INR 0 * 1) ^ 2 * 0 * 1))
    as [H | _]; [lra |].
  destruct (Rlt_dec 0.99
              (0 + 4 * PI * (INR 0 * 1) ^ 2 * 0 * 1
               + 4 * PI * (INR (0 + 1) * 1) ^ 2 * 0 * 1))
    as [H | _]; [lra |].
  do 2 f_equal. ring.
Qed.

Lemma scan_reports_inner_index_witness :
  scan 1 [C0; C1] 0 0
  = (Some (INR 1 * 1), 1%nat,
     0 + 4 * PI * (INR 0 * 1) ^ 2 * Cabs C0 ^ 2 * 1
     + 4 * PI * (INR (0 + 1) * 1) ^ 2 * Cabs C1 ^ 2 * 1)
  /\ (1 <= 1 < length [C0; C1])%nat.
Proof.
  split; [exact scan_zero_one |].
  apply (scan_reports_inner_index 1 [C0; C1] _ 1 _ scan_zero_one).
Defined.

Lemma r99_entry_iff_total_witness :
  0 <= 1
  /\ (r99_entry 1 [C0; C1] <> []
      <-> 0.99 < big_sum (r99_term 1 [C0; C1]) (length [C0; C1])).
Proof.
  assert (Hdr : 0 <= 1) by lra.
  split; [exact Hdr |].
  exact (r99_entry_iff_total 1 [C0; C1] Hdr).
Defined.

Lemma r99_loop_short_history_witness :
  (length [[C0; C1]] <= 1)%nat
  /\ r99_loop 1 1 [[C0; C1]] = Raise IndexError.
Proof.
  assert (Hl : (length [[C0; C1]] <= 1)%nat) by (simpl; lia).
  split; [exact Hl |].
  exact (r99_loop_short_history 1 1 [[C0; C1]] Hl).
Defined.

(** Snapshot 0 has no entry and snapshot 1 has one: the cell reports the
    radius of snapshot 1. *)
Lemma r99_cell_first_entry_witness :
  length [[C0; C0]; [C0; C1]] = 2%nat
  /\ exists s,
       r99_cell 1 1 [[C0; C0]; [C0; C1]]
       = Ok ([INR 1 * 1], s, INR 1 * 1 / 9.461e15).
Proof.
  split; [reflexivity |].
  apply (proj2 (r99_cell_first_entry 1 1 [[C0; C0]; [C0; C1]] eq_refl)
           [[C0; C0]] [C0; C1] [] (INR 1 * 1)).
  - reflexivity.
  - intros psi' [<- | []]. unfold r99_entry. rewrite scan_zero_zero.
    reflexivity.
  - unfold r99_entry. rewrite scan_zero_one. reflexivity.
Defined.

Lemma thomas_ignores_corners_witness :
  length [RtoC (- 1); RtoC (- 1)] = (3 - 1)%nat
  /\ thomas 3 (RtoC 0 :: [RtoC (- 1); RtoC (- 1)]) fixture_b
       ([RtoC (- 1); RtoC (- 1)] ++ [RtoC 0]) fixture_d
     = thomas 3 (RtoC 7 :: [RtoC (- 1); RtoC (- 1)]) fixture_b
         ([RtoC (- 1); RtoC (- 1)] ++ [RtoC 9]) fixture_d.
Proof.
  split; [reflexivity |].
  exact (thomas_ignores_corners 3 (RtoC 0) (RtoC 7) (RtoC 0) (RtoC 9)
           [RtoC (- 1); RtoC (- 1)] fixture_b [RtoC (- 1); RtoC (- 1)]
           fixture_d eq_refl).
Defined.

Module Float64Run.

Import PrimFloat.

(** C4 fails on floats: the system with sub-diagonal [[0, 1]], diagonal
    [[2^-70, 1]], super-diagonal [[1, 0]] and right-hand side [[1, 2]] has
    the non-zero modified diagonal [[2^-70, -2^70]], and in binary64 the
    sweeps return [X = [0, 1]].  Row 1 of the system then gives 1 where the
    right-hand side is 2: the residual is as large as the solution, which
    is close to [[1, 1]]. *)
Lemma thomas_float_residual :
  Float64.forward_sweep 2 [0; 1]%float [0x1p-70; 1]%float [1; 0]%float
    [1; 2]%float
  = Ok ([0x1p-70; -0x1p70]%float, [1; -0x1p70]%float)
  /\ Float64.thomas 2 [0; 1]%float [0x1p-70; 1]%float [1; 0]%float
       [1; 2]%float
     = Ok [0; 1]%float
  /\ Float64.row 2 [0; 1]%float [0x1p-70; 1]%float [1; 0]%float
       [0; 1]%float 1
     = 1%float
  /\ nth 1 [1; 2]%float 0%float = 2%float.
Proof.
  repeat split; vm_compute; reflexivity.
Qed.

End Float64Run.
